(** * BadgerDB buffer manager (src/buffer.cpp): model and verification

    The buffer manager [BufMgr] keeps a frame table ([bufDescTable]), a page
    pool ([bufPool]), a directory from (file, page number) to frame number
    ([hashTable]) and a clock hand.  The methods of [BufMgr] are embedded
    below as functions in a state-and-exception monad: a C++ exception leaves
    the state as mutated up to the [throw]. *)

From stdpp Require Import base option list gmap strings pretty.
From Stdlib Require Import ZArith NArith Lia.

Local Open Scope nat_scope.

(** ** Basic types *)

(** [FrameId] is [std::uint32_t]; frame numbers index the two arrays, so they
    are kept as [nat] and the 32-bit wrap-around is written out where the
    code computes with them ([advanceClock], the constructor). *)
Abbreviation FrameId := nat (only parsing).
(** Page numbers are unsigned integers. *)
Abbreviation PageId := N (only parsing).
(** A [File] is the identity (address) of a live File object; a [File*]
    that may be null is an [option File]. *)
Abbreviation File := N (only parsing).

Definition UINT32_MOD : N := 4294967296.

(** The largest value of a C++ [int]: pin counts are [int]s. *)
Definition INT_MAX : Z := 2147483647.

(** Frame descriptor: the fields of [BufDesc] that buffer.cpp reads and
    writes (the class is declared in buffer.h, which is not in src/).
    [file] is a [File*], null when the frame is empty.  [pinCnt] is a signed
    counter, an [int] (the code tests [pinCnt <= 0]); it is kept as an
    integer, and the one place where the code could overflow it, the
    increment in [readPage], is undefined behaviour at [INT_MAX]
    ([int_incr] below). *)
Record BufDesc := mkBufDesc {
  file : option File;
  pageNo : PageId;
  frameNo : FrameId;
  pinCnt : Z;
  dirty : bool;
  valid : bool;
  refbit : bool
}.

Definition set_refbit (b : bool) (d : BufDesc) : BufDesc :=
  mkBufDesc (file d) (pageNo d) (frameNo d) (pinCnt d) (dirty d) (valid d) b.
Definition set_dirty (b : bool) (d : BufDesc) : BufDesc :=
  mkBufDesc (file d) (pageNo d) (frameNo d) (pinCnt d) b (valid d) (refbit d).
Definition set_pinCnt (n : Z) (d : BufDesc) : BufDesc :=
  mkBufDesc (file d) (pageNo d) (frameNo d) n (dirty d) (valid d) (refbit d).

(** The key under which a frame is filed in the directory. *)
Definition key_of (d : BufDesc) : option File * PageId := (file d, pageNo d).

(** Exceptions.  [Fault] stands for undefined behaviour of the C++ code (an
    array access out of bounds, a null [File*] dereferenced); [OutOfFuel] is
    the model's own signal that the bound on the clock loop was too small
    (shown below never to happen). *)
Inductive exn :=
  | BufferExceededException
  | PageNotPinnedException (name : string) (pageNo : PageId) (frameNo : FrameId)
  | PagePinnedException (name : string) (pageNo : PageId) (frameNo : FrameId)
  | BadBufferException (frameNo : FrameId) (dirty valid refbit : bool)
  | HashNotFoundException
  | HashAlreadyPresentException
  | FileException
  | Fault
  | OutOfFuel.

(** ** The collaborators that are not part of buffer.cpp *)

(** Modelled from the spec: the classes Page and File are not in src/; the
    manager uses them through the contract of the specification (§6).
    Raw pages: [page_number] is [Page::page_number()], [Page_default] the
    default-constructed page of [new Page[bufs]], [INVALID_NUMBER] the
    sentinel [Page::INVALID_NUMBER].  File objects: [Disk] is the state of
    all files; reading a page may raise, the other calls return. *)
Class FileContract := {
  Page : Type;
  Page_default : Page;
  page_number : Page → PageId;
  INVALID_NUMBER : PageId;
  Disk : Type;
  file_readPage : File → PageId → Disk → option Page;
  file_writePage : File → Page → Disk → Disk;
  file_allocatePage : File → Disk → Page * Disk;
  file_deletePage : File → PageId → Disk → Disk;
  filename : File → string
}.

Section BufferManager.

Context {FC : FileContract}.

(** Calls made on File objects, in order (a ghost log). *)
Inductive Event :=
  | EvReadPage (f : File) (p : PageId)
  | EvWritePage (f : File) (pg : Page)
  | EvAllocatePage (f : File)
  | EvDeletePage (f : File) (p : PageId).

(** ** State *)

(** The members of [BufMgr], the files' state and the call log.
    [numBufs] is the length of the arrays, which are never resized. *)
Record State := mkState {
  bufDescTable : list BufDesc;
  bufPool : list Page;
  hashTable : gmap (option File * PageId) FrameId;
  clockHand : FrameId;
  disk : Disk;
  trace : list Event
}.

Definition numBufs (s : State) : nat := length (bufDescTable s).

Definition with_descs (l : list BufDesc) (s : State) : State :=
  mkState l (bufPool s) (hashTable s) (clockHand s) (disk s) (trace s).
Definition with_pool (l : list Page) (s : State) : State :=
  mkState (bufDescTable s) l (hashTable s) (clockHand s) (disk s) (trace s).
Definition with_hash (m : gmap (option File * PageId) FrameId) (s : State) : State :=
  mkState (bufDescTable s) (bufPool s) m (clockHand s) (disk s) (trace s).
Definition with_hand (h : FrameId) (s : State) : State :=
  mkState (bufDescTable s) (bufPool s) (hashTable s) h (disk s) (trace s).
Definition with_disk (d : Disk) (e : Event) (s : State) : State :=
  mkState (bufDescTable s) (bufPool s) (hashTable s) (clockHand s) d (trace s ++ [e]).

(** ** The monad: state that survives exceptions *)

Definition M (A : Type) : Type := State → (exn + A) * State.

Definition ret {A} (a : A) : M A := λ s, (inr a, s).
Definition throw {A} (e : exn) : M A := λ s, (inl e, s).
Definition bind {A B} (m : M A) (k : A → M B) : M B := λ s,
  match m s with
  | (inr a, s') => k a s'
  | (inl e, s') => (inl e, s')
  end.
(** [try { m } catch (const HashNotFoundException &) { h }] *)
Definition catch_HashNotFound {A} (m : M A) (h : M A) : M A := λ s,
  match m s with
  | (inl HashNotFoundException, s') => h s'
  | r => r
  end.

Notation "x ← m ; k" := (bind m (λ x, k))
  (at level 20, m at level 100, k at level 200, only parsing).
Notation "m ;; k" := (bind m (λ _, k))
  (at level 100, k at level 200, right associativity, only parsing).

(** Array accesses; out of bounds is undefined behaviour. *)
Definition getDesc (i : FrameId) : M BufDesc := λ s,
  match bufDescTable s !! i with
  | Some d => (inr d, s)
  | None => (inl Fault, s)
  end.
Definition setDesc (i : FrameId) (d : BufDesc) : M unit := λ s,
  if decide (i < length (bufDescTable s))
  then (inr tt, with_descs (<[i:=d]> (bufDescTable s)) s)
  else (inl Fault, s).
Definition getPool (i : FrameId) : M Page := λ s,
  match bufPool s !! i with
  | Some p => (inr p, s)
  | None => (inl Fault, s)
  end.
Definition setPool (i : FrameId) (p : Page) : M unit := λ s,
  if decide (i < length (bufPool s))
  then (inr tt, with_pool (<[i:=p]> (bufPool s)) s)
  else (inl Fault, s).

(** [n += 1] on an [int]: at [INT_MAX] the signed overflow is undefined
    behaviour. *)
Definition int_incr (n : Z) : M Z := λ s,
  if decide (n < INT_MAX)%Z then (inr (n + 1)%Z, s) else (inl Fault, s).

(** Calls on a [File*]; a null pointer cannot be dereferenced. *)
Definition deref (fp : option File) : M File := λ s,
  match fp with
  | Some f => (inr f, s)
  | None => (inl Fault, s)
  end.
Definition call_readPage (f : File) (p : PageId) : M Page := λ s,
  let s' := with_disk (disk s) (EvReadPage f p) s in
  match file_readPage f p (disk s) with
  | Some pg => (inr pg, s')
  | None => (inl FileException, s')
  end.
Definition call_writePage (f : File) (pg : Page) : M unit := λ s,
  (inr tt, with_disk (file_writePage f pg (disk s)) (EvWritePage f pg) s).
Definition call_allocatePage (f : File) : M Page := λ s,
  let '(pg, dk) := file_allocatePage f (disk s) in
  (inr pg, with_disk dk (EvAllocatePage f) s).
Definition call_deletePage (f : File) (p : PageId) : M unit := λ s,
  (inr tt, with_disk (file_deletePage f p (disk s)) (EvDeletePage f p) s).

(** Modelled from the spec: the directory class BufHashTbl is not in src/.
    It is an associative map keyed by (file identity, page number); lookup
    and removal of a missing key, and insertion of a present key, are
    signalled by an error (spec §3 and §7). *)
Definition ht_lookup (k : option File * PageId) : M FrameId := λ s,
  match hashTable s !! k with
  | Some i => (inr i, s)
  | None => (inl HashNotFoundException, s)
  end.
Definition ht_insert (k : option File * PageId) (i : FrameId) : M unit := λ s,
  match hashTable s !! k with
  | Some _ => (inl HashAlreadyPresentException, s)
  | None => (inr tt, with_hash (<[k:=i]> (hashTable s)) s)
  end.
Definition ht_remove (k : option File * PageId) : M unit := λ s,
  match hashTable s !! k with
  | Some _ => (inr tt, with_hash (delete k (hashTable s)) s)
  | None => (inl HashNotFoundException, s)
  end.

(** Modelled from the spec: BufDesc::Set and BufDesc::Clear are declared in
    buffer.h, which is not in src/ (spec §4.8).  [Set] establishes file,
    pageNo, valid=true, pinCnt=1, dirty=false, refbit=true; [Clear] resets
    to file absent, pageNo=INVALID, pinCnt=0, valid=false, dirty=false,
    refbit=false; both keep frameNo. *)
Definition Set_ (f : File) (p : PageId) (d : BufDesc) : BufDesc :=
  mkBufDesc (Some f) p (frameNo d) 1 false true true.
Definition Clear (d : BufDesc) : BufDesc :=
  mkBufDesc None INVALID_NUMBER (frameNo d) 0 false false false.

(** ** BufMgr::BufMgr *)

(** Modelled from the spec: the default constructor of BufDesc (buffer.h)
    leaves the descriptor empty, as [Clear] does. *)
Definition BufMgr_init (bufs : nat) (dk : Disk) : State :=
  mkState
    (map (λ i, mkBufDesc None INVALID_NUMBER i 0 false false false) (seq 0 bufs))
    (replicate bufs Page_default)
    ∅
    (N.to_nat ((N.of_nat bufs + UINT32_MOD - 1) mod UINT32_MOD))
    dk [].

(** ** BufMgr::advanceClock *)

Definition getHand : M FrameId := λ s, (inr (clockHand s), s).

Definition advanceClock : M unit := λ s,
  (inr tt,
   with_hand
     (N.to_nat (((N.of_nat (clockHand s) + 1) mod UINT32_MOD)
                mod N.of_nat (numBufs s))) s).

(** ** BufMgr::allocBuf *)

(** The tail of the loop body: the frame under the hand is valid,
    unreferenced and unpinned. *)
Definition evict (h : FrameId) (d : BufDesc) : M FrameId :=
  (if dirty d
   then (f ← deref (file d); pg ← getPool h; call_writePage f pg)
   else ret tt);;
  ht_remove (file d, pageNo d);;
  setDesc h (Clear d);;
  ret h.

(** [while (pinCount != numBufs) { ... } throw BufferExceededException();]
    with [pinCount] a [std::uint32_t]. *)
Fixpoint allocBuf_loop (fuel : nat) (pinCount : N) : M FrameId := λ s,
  if decide (pinCount = N.of_nat (numBufs s)) then (inl BufferExceededException, s)
  else
    match fuel with
    | O => (inl OutOfFuel, s)
    | S fuel' =>
        (advanceClock;;
         h ← getHand;
         d ← getDesc h;
         if negb (valid d) then ret h
         else if refbit d then
           setDesc h (set_refbit false d);; allocBuf_loop fuel' pinCount
         else if (0 <? pinCnt d)%Z then
           allocBuf_loop fuel' ((pinCount + 1) mod UINT32_MOD)%N
         else evict h d) s
    end.

(** The bound [2 * numBufs] on the loop: every iteration that does not
    return either clears a reference bit or counts a pinned frame. *)
Definition allocBuf : M FrameId := λ s,
  allocBuf_loop (2 * numBufs s) 0%N s.

(** ** BufMgr::readPage *)

(** The returned [Page*] points at [bufPool[frame]]: it is modelled by the
    frame number. *)
Definition readPage (f : File) (p : PageId) : M FrameId :=
  catch_HashNotFound
    (frame ← ht_lookup (Some f, p);
     d ← getDesc frame;
     setDesc frame (set_refbit true d);;
     d ← getDesc frame;
     n ← int_incr (pinCnt d);
     setDesc frame (set_pinCnt n d);;
     ret frame)
    (frame ← allocBuf;
     pg ← call_readPage f p;
     setPool frame pg;;
     ht_insert (Some f, p) frame;;
     d ← getDesc frame;
     setDesc frame (Set_ f p d);;
     ret frame).

(** ** BufMgr::unPinPage *)

Definition unPinPage (f : File) (p : PageId) (dirty_arg : bool) : M unit :=
  catch_HashNotFound
    (frame ← ht_lookup (Some f, p);
     (if dirty_arg
      then (d ← getDesc frame; setDesc frame (set_dirty true d))
      else ret tt);;
     d ← getDesc frame;
     if (pinCnt d <=? 0)%Z
     then throw (PageNotPinnedException (filename f) p frame)
     else setDesc frame (set_pinCnt (pinCnt d - 1) d))
    (ret tt).

(** ** BufMgr::allocPage *)

Definition allocPage (f : File) : M (PageId * FrameId) :=
  new_page ← call_allocatePage f;
  let p := page_number new_page in
  frame ← allocBuf;
  ht_insert (Some f, p) frame;;
  d ← getDesc frame;
  setDesc frame (Set_ f p d);;
  setPool frame new_page;;
  ret (p, frame).

(** ** BufMgr::flushFile *)

(** The body of the [for] loop at frame [i].  The argument is a pointer
    that is only compared, never dereferenced. *)
Definition flushFrame (fp : option File) (i : FrameId) : M unit :=
  d ← getDesc i;
  if decide (file d = fp) then
    if (0 <? pinCnt d)%Z then
      f ← deref (file d);
      throw (PagePinnedException (filename f) (pageNo d) i)
    else if decide (pageNo d = INVALID_NUMBER) then
      throw (BadBufferException i (dirty d) (valid d) (refbit d))
    else
      (if dirty d
       then (f ← deref (file d);
             pg ← getPool i;
             call_writePage f pg;;
             setDesc i (set_dirty false d))
       else ret tt);;
      d ← getDesc i;
      ht_remove (file d, pageNo d);;
      setDesc i (Clear d)
  else ret tt.

(** [for (FrameId i = ...; i < numBufs; ++i)] with [n] frames left. *)
Fixpoint flushFile_from (fp : option File) (n : nat) (i : FrameId) : M unit :=
  match n with
  | O => ret tt
  | S n' => flushFrame fp i;; flushFile_from fp n' (S i)
  end.

Definition flushFile (fp : option File) : M unit := λ s,
  flushFile_from fp (numBufs s) 0 s.

(** ** BufMgr::disposePage *)

Definition disposePage (f : File) (p : PageId) : M unit :=
  catch_HashNotFound
    (frame ← ht_lookup (Some f, p);
     ht_remove (Some f, p);;
     d ← getDesc frame;
     setDesc frame (Clear d))
    (ret tt);;
  call_deletePage f p.

(** ** BufMgr::~BufMgr *)

(** The body of the destructor's loop at frame [i]: a frame that is valid
    and dirty is written to its file, pinned or not. *)
Definition writeBackFrame (i : FrameId) : M unit :=
  d ← getDesc i;
  if valid d && dirty d
  then (f ← deref (file d); pg ← getPool i; call_writePage f pg)
  else ret tt.

Fixpoint writeBack_from (n : nat) (i : FrameId) : M unit :=
  match n with
  | O => ret tt
  | S n' => writeBackFrame i;; writeBack_from n' (S i)
  end.

(** The destructor up to the release of the tables: what it leaves
    behind is the state of the files. *)
Definition BufMgr_destroy : M unit := λ s,
  writeBack_from (numBufs s) 0 s.

(** ** The operations as commands *)

Inductive Op :=
  | OpReadPage (f : File) (p : PageId)
  | OpAllocPage (f : File)
  | OpUnPinPage (f : File) (p : PageId) (dirty_arg : bool)
  | OpFlushFile (fp : option File)
  | OpDisposePage (f : File) (p : PageId)
  | OpAllocBuf.

(** The outcome of a command: [None] for a normal return, [Some e] when
    [e] propagates to the caller; and the state it leaves. *)
Definition outcome {A} (r : (exn + A) * State) : option exn * State :=
  (match r.1 with inl e => Some e | inr _ => None end, r.2).

Definition run (op : Op) (s : State) : option exn * State :=
  match op with
  | OpReadPage f p => outcome (readPage f p s)
  | OpAllocPage f => outcome (allocPage f s)
  | OpUnPinPage f p b => outcome (unPinPage f p b s)
  | OpFlushFile fp => outcome (flushFile fp s)
  | OpDisposePage f p => outcome (disposePage f p s)
  | OpAllocBuf => outcome (allocBuf s)
  end.

Fixpoint run_all (ops : list Op) (s : State) : State :=
  match ops with
  | [] => s
  | op :: ops' => run_all ops' (run op s).2
  end.

End BufferManager.

(** * The representation invariant *)

Section Specification.

Context {FC : FileContract}.

(** The invariant on the three tables: the arrays have the same length,
    which fits a [uint32]; the directory holds exactly the keys of the
    valid frames; a frame is valid exactly when it has an owning file. *)
Definition inv_on (ds : list BufDesc) (pl : list Page)
    (ht : gmap (option File * PageId) FrameId) : Prop :=
  length pl = length ds ∧
  (N.of_nat (length ds) < UINT32_MOD)%N ∧
  (∀ k i, ht !! k = Some i ↔
          ∃ d, ds !! i = Some d ∧ valid d = true ∧ key_of d = k) ∧
  (∀ i d, ds !! i = Some d → valid d = true ↔ is_Some (file d)).

Definition BufInv (s : State) : Prop :=
  inv_on (bufDescTable s) (bufPool s) (hashTable s).

(** The two properties of the specification (§8, invariants 1 and 2):
    a frame is valid iff the directory maps its (file, pageNo) to it, and
    no two valid frames hold the same (file, pageNo). *)
Definition directory_agrees (s : State) : Prop :=
  ∀ i d, bufDescTable s !! i = Some d →
         (valid d = true ↔ hashTable s !! (file d, pageNo d) = Some i).

Definition frames_distinct (s : State) : Prop :=
  ∀ i j di dj,
    bufDescTable s !! i = Some di → bufDescTable s !! j = Some dj →
    valid di = true → valid dj = true →
    file di = file dj → pageNo di = pageNo dj → i = j.

(** What [flushFile f] does to a frame, the frames it can process, and
    the pages it writes back (the dirty pages of [f], in frame order). *)
Definition flush_desc (f : File) (d : BufDesc) : BufDesc :=
  if decide (file d = Some f) then Clear d else d.

Definition flushable (f : File) (d : BufDesc) : Prop :=
  file d = Some f → (pinCnt d ≤ 0)%Z ∧ pageNo d ≠ INVALID_NUMBER.

Definition frame_writes (f : File) (d : BufDesc) (pg : Page) : list Page :=
  if decide (file d = Some f) then if dirty d then [pg] else [] else [].

Fixpoint flush_writes (f : File) (ds : list BufDesc) (pl : list Page) : list Page :=
  match ds, pl with
  | d :: ds', pg :: pl' => frame_writes f d pg ++ flush_writes f ds' pl'
  | _, _ => []
  end.

Definition write_all (f : File) (pgs : list Page) (dk : Disk) : Disk :=
  foldl (λ dk pg, file_writePage f pg dk) dk pgs.

(** The invariant on the descriptors: the frame number is the index, the
    pin count is never negative, and an invalid frame is as [Clear] leaves
    it. *)
Definition frame_ok (i : FrameId) (d : BufDesc) : Prop :=
  frameNo d = i ∧ (0 ≤ pinCnt d)%Z ∧ (valid d = false → d = Clear d).

Definition PinInv (s : State) : Prop :=
  ∀ i d, bufDescTable s !! i = Some d → frame_ok i d.

(** The pages the destructor writes: those of the valid dirty frames, each
    to the file that owns it, in frame order. *)
Definition frame_write_back (d : BufDesc) (pg : Page) : list (File * Page) :=
  if valid d && dirty d
  then match file d with Some f => [(f, pg)] | None => [] end
  else [].

Fixpoint write_backs (ds : list BufDesc) (pl : list Page) : list (File * Page) :=
  match ds, pl with
  | d :: ds', pg :: pl' => frame_write_back d pg ++ write_backs ds' pl'
  | _, _ => []
  end.

Definition write_event (w : File * Page) : Event := EvWritePage w.1 w.2.

Definition write_each (ws : list (File * Page)) (dk : Disk) : Disk :=
  foldl (λ dk w, file_writePage w.1 w.2 dk) dk ws.

(** A descriptor after clock passes that did not choose it: as it was,
    or with its reference bit cleared. *)
Definition aged (d d' : BufDesc) : Prop :=
  d' = d ∨ d' = set_refbit false d.

(** [k] advances of the clock hand. *)
Definition advance_n (k : nat) (s : State) : State :=
  Nat.iter k (λ s, (advanceClock s).2) s.

(** The number of valid frames. *)
Fixpoint valid_count (ds : list BufDesc) : nat :=
  match ds with
  | [] => 0
  | d :: ds' => (if valid d then 1 else 0) + valid_count ds'
  end.

(** The number of reference bits that are set: with the number of pinned
    frames still to be counted, it bounds the iterations of the clock. *)
Fixpoint refcount (ds : list BufDesc) : nat :=
  match ds with
  | [] => 0
  | d :: ds' => (if refbit d then 1 else 0) + refcount ds'
  end.

End Specification.

(** * A concrete File collaborator

    Files as a list of allocated pages; a page is its number and a content
    word.  Page numbers start at 1 and [0] is the invalid number.  It
    instantiates the contract above, for running the manager on examples. *)
Module SimpleFile.

Definition holds (f : File) (p : PageId) (e : File * (PageId * N)) : bool :=
  bool_decide (e.1 = f) && bool_decide (e.2.1 = p).

Definition next_number (f : File) (dk : list (File * (PageId * N))) : PageId :=
  (1 + foldr N.max 0
         (map (λ e : File * (PageId * N), if bool_decide (e.1 = f) then e.2.1 else 0) dk))%N.

#[export] Instance simple_file : FileContract := {|
  Page := PageId * N;
  Page_default := (0%N, 0%N);
  page_number := fst;
  INVALID_NUMBER := 0%N;
  Disk := list (File * (PageId * N));
  file_readPage f p dk := snd <$> find (holds f p) dk;
  file_writePage f pg dk := map (λ e, if holds f pg.1 e then (f, pg) else e) dk;
  file_allocatePage f dk :=
    let pg := (next_number f dk, 0%N) in (pg, (f, pg) :: dk);
  file_deletePage f p dk := filter (λ e, holds f p e = false) dk;
  filename f := pretty f
|}.

(** Is page [p] of file [f] allocated on the disk? *)
Definition allocated (f : File) (p : PageId) (dk : list (File * (PageId * N))) : bool :=
  existsb (holds f p) dk.

(** A disk with pages 1..4 of file 7. *)
Definition disk0 : list (File * (PageId * N)) :=
  [(7%N, (1%N, 10%N)); (7%N, (2%N, 20%N)); (7%N, (3%N, 30%N)); (7%N, (4%N, 40%N))].

(** A fresh manager with [bufs] frames over [disk0]. *)
Definition fresh (bufs : nat) : @State simple_file := BufMgr_init bufs disk0.

(** Two frames, pages 1 and 2 of file 7 read and still pinned. *)
Definition both_pinned : @State simple_file :=
  run_all [OpReadPage 7 1; OpReadPage 7 2] (fresh 2).

(** One frame, page 1 read and unpinned once. *)
Definition one_unpinned : @State simple_file :=
  run_all [OpReadPage 7 1; OpUnPinPage 7 1 false] (fresh 1).

(** Two frames: frame 0 holds page 1, pinned, reference bit clear; frame 1
    holds page 3, unpinned, reference bit set; the clock hand is at 1. *)
Definition pinned_then_referenced : @State simple_file :=
  run_all [OpReadPage 7 1; OpReadPage 7 2; OpUnPinPage 7 2 false;
           OpReadPage 7 3; OpUnPinPage 7 3 false] (fresh 2).

(** Three frames holding pages 1, 2 (dirty) and 3 of file 7, page 3 still
    pinned. *)
Definition two_flushable_one_pinned : @State simple_file :=
  run_all [OpReadPage 7 1; OpReadPage 7 2; OpReadPage 7 3;
           OpUnPinPage 7 1 false; OpUnPinPage 7 2 true] (fresh 3).

(** One frame holding a page whose number is the invalid number (the file
    of this disk serves it), unpinned. *)
Definition invalid_number_resident : @State simple_file :=
  run_all [OpReadPage 7 0; OpUnPinPage 7 0 false]
          (BufMgr_init 1 [(7%N, (0%N, 99%N))]).

(** Two frames: page 1 of file 7 read into frame 0 and unpinned; frame 1
    has never been used. *)
Definition one_resident_one_empty : @State simple_file :=
  run_all [OpReadPage 7 1; OpUnPinPage 7 1 false] (fresh 2).

(** One frame, page 1 of file 7 read and still pinned. *)
Definition one_pinned : @State simple_file :=
  run_all [OpReadPage 7 1] (fresh 1).

End SimpleFile.

(** * Verification *)

Section Verification.

Context {FC : FileContract}.

Ltac msimpl :=
  cbv beta iota zeta delta
    [bind ret throw catch_HashNotFound getDesc setDesc getPool
     setPool deref int_incr call_readPage call_writePage call_allocatePage
     call_deletePage ht_lookup ht_insert ht_remove getHand advanceClock
     with_descs with_pool with_hash with_hand with_disk] in *;
  cbn [bufDescTable bufPool hashTable clockHand disk trace fst snd] in *.

(** ** The invariant on the tables *)

Lemma inv_on_pool ds pl pl' ht :
  inv_on ds pl ht → length pl' = length pl → inv_on ds pl' ht.
Proof. unfold inv_on. intros (Hl & ?) Hl'. rewrite Hl'. done. Qed.

(** Changing fields other than [valid], [file] and [pageNo]. *)
Lemma inv_on_touch ds pl ht i d d' :
  inv_on ds pl ht → ds !! i = Some d →
  valid d' = valid d → key_of d' = key_of d →
  inv_on (<[i:=d']> ds) pl ht.
Proof.
  intros (Hl & Hn & Hd & Ho) Hi Hv Hk.
  assert (Hlt : i < length ds) by (eapply lookup_lt_Some; eauto).
  unfold inv_on. rewrite length_insert. split_and!; try done.
  - intros k j. rewrite Hd. destruct (decide (j = i)) as [->|Hne].
    + rewrite list_lookup_insert_eq by done. rewrite Hi.
      split; intros (x & Hx & Hvx & Hkx); injection Hx as <-.
      * exists d'. split_and!; congruence.
      * exists d. split_and!; congruence.
    + by rewrite list_lookup_insert_ne.
  - intros j x. destruct (decide (j = i)) as [->|Hne].
    + rewrite list_lookup_insert_eq by done. intros [= <-].
      unfold key_of in Hk. injection Hk as Hf Hp.
      rewrite Hv, Hf. exact (Ho _ _ Hi).
    + rewrite list_lookup_insert_ne by done. apply Ho.
Qed.

(** Removing the directory entry of a valid frame and emptying it. *)
Lemma inv_on_evict ds pl ht i d d' :
  inv_on ds pl ht → ds !! i = Some d → valid d = true →
  valid d' = false → file d' = None →
  inv_on (<[i:=d']> ds) pl (delete (key_of d) ht).
Proof.
  intros (Hl & Hn & Hd & Ho) Hi Hv Hv' Hf'.
  assert (Hlt : i < length ds) by (eapply lookup_lt_Some; eauto).
  assert (Hown : ht !! key_of d = Some i) by (apply Hd; eauto).
  unfold inv_on. rewrite length_insert. split_and!; try done.
  - intros k j. rewrite lookup_delete. case_decide as Hk.
    + subst k. split; [done|]. intros (x & Hx & Hvx & Hkx).
      destruct (decide (j = i)) as [->|Hne].
      * rewrite list_lookup_insert_eq in Hx by done. congruence.
      * rewrite list_lookup_insert_ne in Hx by done.
        assert (ht !! key_of d = Some j) by (apply Hd; eauto). congruence.
    + rewrite Hd. destruct (decide (j = i)) as [->|Hne].
      * rewrite list_lookup_insert_eq by done. rewrite Hi.
        split; intros (x & Hx & Hvx & Hkx); simplify_eq. congruence.
      * by rewrite list_lookup_insert_ne.
  - intros j x. destruct (decide (j = i)) as [->|Hne].
    + rewrite list_lookup_insert_eq by done. intros [= <-].
      rewrite Hv', Hf'. split; [done|]. by intros [? ?].
    + rewrite list_lookup_insert_ne by done. apply Ho.
Qed.

(** Filing an invalid frame under a key that is not in the directory. *)
Lemma inv_on_install ds pl ht i d d' f p :
  inv_on ds pl ht → ds !! i = Some d → valid d = false →
  ht !! (Some f, p) = None →
  valid d' = true → key_of d' = (Some f, p) →
  inv_on (<[i:=d']> ds) pl (<[(Some f, p):=i]> ht).
Proof.
  intros (Hl & Hn & Hd & Ho) Hi Hv Hnone Hv' Hk'.
  assert (Hlt : i < length ds) by (eapply lookup_lt_Some; eauto).
  unfold inv_on. rewrite length_insert. split_and!; try done.
  - intros k j. rewrite lookup_insert. case_decide as Hk.
    + subst k. split.
      * intros ?; simplify_eq. exists d'.
        by rewrite list_lookup_insert_eq.
      * intros (x & Hx & Hvx & Hkx).
        destruct (decide (j = i)) as [->|Hne]; [done|].
        rewrite list_lookup_insert_ne in Hx by done.
        assert (ht !! (Some f, p) = Some j) by (apply Hd; eauto). congruence.
    + rewrite Hd. destruct (decide (j = i)) as [->|Hne].
      * rewrite list_lookup_insert_eq by done. rewrite Hi.
        split; intros (x & Hx & Hvx & Hkx); simplify_eq; congruence.
      * by rewrite list_lookup_insert_ne.
  - intros j x. destruct (decide (j = i)) as [->|Hne].
    + rewrite list_lookup_insert_eq by done. intros [= <-].
      unfold key_of in Hk'. injection Hk' as Hf Hp.
      rewrite Hv', Hf. split; eauto.
    + rewrite list_lookup_insert_ne by done. apply Ho.
Qed.

Lemma BufInv_directory_agrees s : BufInv s → directory_agrees s.
Proof.
  intros (Hl & Hn & Hd & Ho) i d Hi. rewrite Hd. split.
  - intros Hv. by exists d.
  - intros (x & Hx & Hvx & Hkx). congruence.
Qed.

Lemma BufInv_frames_distinct s : BufInv s → frames_distinct s.
Proof.
  intros (Hl & Hn & Hd & Ho) i j di dj Hi Hj Hvi Hvj Hf Hp.
  assert (hashTable s !! key_of di = Some i) by (apply Hd; eauto).
  assert (hashTable s !! key_of dj = Some j) by (apply Hd; eauto).
  unfold key_of in *. rewrite Hf, Hp in *. congruence.
Qed.

(** The constructor establishes the invariant. *)
Lemma BufInv_init bufs dk :
  (N.of_nat bufs < UINT32_MOD)%N → BufInv (BufMgr_init bufs dk).
Proof.
  intros Hb. unfold BufInv, inv_on, BufMgr_init; simpl.
  rewrite length_replicate, length_map, length_seq. split_and!; try done.
  - intros k i. rewrite lookup_empty. split; [done|].
    intros (d & Hd & Hv & _). rewrite list_lookup_fmap in Hd.
    destruct (seq 0 bufs !! i); simplify_eq/=.
  - intros i d Hd. rewrite list_lookup_fmap in Hd.
    destruct (seq 0 bufs !! i); simplify_eq/=. split; [done|]. by intros [? ?].
Qed.

(** ** allocBuf *)

Lemma evict_inv h d s r s' :
  BufInv s → bufDescTable s !! h = Some d → valid d = true →
  evict h d s = (r, s') →
  BufInv s' ∧
  (∀ k i, hashTable s' !! k = Some i → hashTable s !! k = Some i) ∧
  r = inr h ∧ bufDescTable s' !! h = Some (Clear d).
Proof.
  intros Hinv Hh Hv He.
  pose proof Hinv as (Hl & Hn & Hd & Ho).
  assert (Hlt : h < length (bufDescTable s)) by (eapply lookup_lt_Some; eauto).
  assert (Hkey : hashTable s !! key_of d = Some h) by (apply Hd; eauto).
  destruct (proj1 (Ho _ _ Hh) Hv) as [f Hf].
  destruct (lookup_lt_is_Some_2 (bufPool s) h) as [pg Hpg]; [lia|].
  eapply (inv_on_evict _ _ _ h d (Clear d)) in Hinv; eauto.
  unfold evict, key_of in *. rewrite Hf in Hkey, Hinv.
  destruct (dirty d); msimpl; rewrite ?Hf, ?Hpg in He; msimpl;
    rewrite Hkey in He; msimpl;
    (destruct (decide (h < length (bufDescTable s))); [|lia]);
    injection He as <- <-; msimpl;
    (split_and!;
     [ exact Hinv
     | intros k i; rewrite lookup_delete; case_decide; done
     | done
     | by rewrite list_lookup_insert_eq ]).
Qed.

Lemma allocBuf_loop_inv fuel : ∀ pc s r s',
  BufInv s → allocBuf_loop fuel pc s = (r, s') →
  BufInv s' ∧
  (∀ k i, hashTable s' !! k = Some i → hashTable s !! k = Some i) ∧
  match r with
  | inr h => ∃ d, bufDescTable s' !! h = Some d ∧ valid d = false
  | inl e => disk s' = disk s ∧ trace s' = trace s ∧
             hashTable s' = hashTable s ∧
             (e = BufferExceededException ∨ e = OutOfFuel ∨ e = Fault)
  end.
Proof.
  induction fuel as [|fuel IH]; intros pc s r s' Hinv H; simpl in H;
    case_decide; try (injection H as <- <-; by eauto 10).
  msimpl.
  set (hand := N.to_nat _) in H.
  destruct (bufDescTable s !! hand) as [d|] eqn:Hh;
    [|injection H as <- <-; by eauto 10].
  destruct (valid d) eqn:Hv; simpl in H;
    [|injection H as <- <-; msimpl; by eauto 10].
  assert (Hlt : hand < length (bufDescTable s)) by (eapply lookup_lt_Some; eauto).
  destruct (refbit d) eqn:Hr; msimpl.
  { destruct (decide (hand < length (bufDescTable s))); [|lia]. msimpl.
    apply IH in H; [exact H|].
    eapply inv_on_touch; eauto. }
  destruct (0 <? pinCnt d)%Z.
  { apply IH in H; [exact H|]. exact Hinv. }
  eapply (evict_inv hand d) in H; eauto.
  destruct H as (? & ? & -> & ?). split_and!; eauto.
Qed.

Lemma refcount_le ds : refcount ds ≤ length ds.
Proof. induction ds as [|d ds IH]; simpl; [lia|]. destruct (refbit d); lia. Qed.

Lemma refcount_clear ds : ∀ i d,
  ds !! i = Some d → refbit d = true →
  S (refcount (<[i:=set_refbit false d]> ds)) = refcount ds.
Proof.
  induction ds as [|x ds IH]; intros [|i] d Hi Hr; simplify_eq/=.
  - rewrite Hr. lia.
  - rewrite <- (IH i d) by done. destruct (refbit x); lia.
Qed.

Lemma hand_in_range (c n : nat) :
  0 < n →
  N.to_nat (((N.of_nat c + 1) mod UINT32_MOD) mod N.of_nat n) < n.
Proof.
  intros Hn.
  pose proof (N.mod_upper_bound ((N.of_nat c + 1) mod UINT32_MOD) (N.of_nat n)).
  lia.
Qed.

Lemma allocBuf_loop_total fuel : ∀ pc s,
  BufInv s → (pc ≤ N.of_nat (numBufs s))%N →
  refcount (bufDescTable s) + (numBufs s - N.to_nat pc) ≤ fuel →
  ∃ s', allocBuf_loop fuel pc s = (inl BufferExceededException, s') ∨
        ∃ h, allocBuf_loop fuel pc s = (inr h, s').
Proof.
  induction fuel as [|fuel IH]; intros pc s Hinv Hpc Hm; simpl;
    case_decide as Hg; eauto; unfold numBufs in *.
  { lia. }
  msimpl. set (hand := N.to_nat _).
  assert (Hlt : hand < length (bufDescTable s)) by (apply hand_in_range; lia).
  destruct (lookup_lt_is_Some_2 _ _ Hlt) as [d Hh]. rewrite Hh.
  destruct (valid d) eqn:Hv; simpl; eauto.
  destruct (refbit d) eqn:Hr; msimpl.
  { destruct (decide (hand < length (bufDescTable s))); [|lia]. msimpl.
    apply IH; msimpl.
    - eapply inv_on_touch; eauto.
    - by rewrite length_insert.
    - rewrite length_insert.
      pose proof (refcount_clear _ _ _ Hh Hr). lia. }
  destruct (0 <? pinCnt d)%Z.
  { destruct Hinv as (? & Hn & ?).
    assert (Hpc' : ((pc + 1) mod UINT32_MOD = pc + 1)%N)
      by (apply N.mod_small; lia).
    rewrite Hpc'. apply IH; msimpl; [done|lia|lia]. }
  match goal with |- context [evict hand d ?s0] =>
    destruct (evict hand d s0) as [r s'] eqn:He end.
  eapply (evict_inv hand d) in He; eauto.
  destruct He as (_ & _ & -> & _). eauto.
Qed.

Lemma allocBuf_spec s r s' :
  BufInv s → allocBuf s = (r, s') →
  BufInv s' ∧
  (∀ k i, hashTable s' !! k = Some i → hashTable s !! k = Some i) ∧
  match r with
  | inr h => ∃ d, bufDescTable s' !! h = Some d ∧ valid d = false
  | inl e => disk s' = disk s ∧ trace s' = trace s ∧
             hashTable s' = hashTable s ∧ e = BufferExceededException
  end.
Proof.
  intros Hinv H. unfold allocBuf in H.
  destruct (allocBuf_loop_total (2 * numBufs s) 0 s Hinv) as (s0 & Ht).
  { lia. }
  { pose proof (refcount_le (bufDescTable s)). unfold numBufs. lia. }
  pose proof (allocBuf_loop_inv _ _ _ _ _ Hinv H) as (Hi & Hsub & Hr).
  split_and!; try done.
  destruct r as [e|h]; [|done].
  destruct Hr as (? & ? & ? & _). split_and!; try done.
  destruct Ht as [Ht|[h Ht]]; congruence.
Qed.

(** What [allocBuf] does guarantee: with every frame valid and pinned it
    raises [BufferExceededException]. *)
Lemma allocBuf_loop_all_pinned fuel : ∀ pc s r s',
  Forall (λ d, valid d = true ∧ (0 < pinCnt d)%Z) (bufDescTable s) →
  allocBuf_loop fuel pc s = (r, s') → ∀ h, r ≠ inr h.
Proof.
  induction fuel as [|fuel IH]; intros pc s r s' Hall H; simpl in H;
    case_decide; try (injection H as <- <-; done).
  msimpl. set (hand := N.to_nat _) in H.
  destruct (bufDescTable s !! hand) as [d|] eqn:Hh;
    [|injection H as <- <-; done].
  destruct (proj1 (Forall_lookup _ _) Hall hand d Hh) as [Hv Hp].
  rewrite Hv in H. simpl in H.
  assert (Hlt : hand < length (bufDescTable s)) by (eapply lookup_lt_Some; eauto).
  destruct (refbit d); msimpl.
  - destruct (decide (hand < length (bufDescTable s))); [|lia]. msimpl.
    eapply IH; [|exact H]. msimpl.
    apply Forall_insert; [done|]. done.
  - destruct (0 <? pinCnt d)%Z eqn:Hpin; [|lia].
    eapply IH; [|exact H]. done.
Qed.

Lemma allocBuf_all_pinned s :
  BufInv s →
  Forall (λ d, valid d = true ∧ (0 < pinCnt d)%Z) (bufDescTable s) →
  (allocBuf s).1 = inl BufferExceededException.
Proof.
  intros Hinv Hall. destruct (allocBuf s) as [[e|h] s'] eqn:H; simpl.
  - by destruct (allocBuf_spec _ _ _ Hinv H) as (_ & _ & _ & _ & _ & ->).
  - unfold allocBuf in H.
    by destruct (allocBuf_loop_all_pinned _ _ _ _ _ Hall H h).
Qed.

(** With an invalid frame in the pool it returns a frame: the hand reaches
    that frame within [numBufs] advances, before [pinCount] can reach
    [numBufs]. *)
Lemma advance_in_range (n h : nat) :
  h < n → (N.of_nat n < UINT32_MOD)%N →
  N.to_nat (((N.of_nat h + 1) mod UINT32_MOD) mod N.of_nat n) = (h + 1) mod n.
Proof.
  intros Hh Hn.
  rewrite (N.mod_small (N.of_nat h + 1) UINT32_MOD) by lia.
  destruct (decide (h + 1 = n)) as [<-|Hne].
  - replace (N.of_nat h + 1)%N with (N.of_nat (h + 1)) by lia.
    rewrite N.Div0.mod_same, Nat.Div0.mod_same. done.
  - rewrite N.mod_small, Nat.mod_small by lia. lia.
Qed.

Lemma allocBuf_loop_reaches_invalid : ∀ k fuel pc s i di,
  BufInv s → bufDescTable s !! i = Some di → valid di = false →
  (N.to_nat (((N.of_nat (clockHand s) + 1) mod UINT32_MOD)
             mod N.of_nat (numBufs s)) + k) mod numBufs s = i →
  k < fuel → N.to_nat pc + k < numBufs s →
  ∃ h s', allocBuf_loop fuel pc s = (inr h, s').
Proof.
  induction k as [k IH] using lt_wf_ind.
  intros fuel pc s i di Hinv Hi Hvi Hreach Hfuel Hpc.
  unfold numBufs in *.
  pose proof Hinv as (Hl & Hn & Hd & Ho).
  destruct fuel as [|fuel]; [lia|]. simpl.
  case_decide as Hg; [unfold numBufs in Hg; lia|].
  msimpl. set (hand := N.to_nat _) in *.
  assert (Hlt : hand < length (bufDescTable s)) by (apply hand_in_range; lia).
  destruct (lookup_lt_is_Some_2 _ _ Hlt) as [d Hh]. rewrite Hh.
  destruct (valid d) eqn:Hv; simpl; [|eauto].
  assert (Hne : hand ≠ i) by (intros ->; congruence).
  assert (Hk : 1 ≤ k).
  { destruct k; [|lia]. rewrite Nat.add_0_r, Nat.mod_small in Hreach; lia. }
  assert (Hnext : ((hand + 1) mod length (bufDescTable s) + (k - 1))
                    mod length (bufDescTable s) = i).
  { rewrite Nat.Div0.add_mod_idemp_l.
    replace (hand + 1 + (k - 1)) with (hand + k) by lia. done. }
  destruct (refbit d) eqn:Hr; msimpl.
  { destruct (decide (hand < length (bufDescTable s))); [|lia]. msimpl.
    eapply (IH (k - 1)); msimpl; unfold numBufs; msimpl;
      rewrite ?length_insert.
    - lia.
    - eapply inv_on_touch; eauto.
    - rewrite list_lookup_insert_ne by done. exact Hi.
    - done.
    - rewrite advance_in_range by lia. exact Hnext.
    - lia.
    - lia. }
  destruct (0 <? pinCnt d)%Z.
  { rewrite (N.mod_small (pc + 1) UINT32_MOD) by lia.
    eapply (IH (k - 1)); msimpl; unfold numBufs; msimpl.
    - lia.
    - exact Hinv.
    - exact Hi.
    - done.
    - rewrite advance_in_range by lia. exact Hnext.
    - lia.
    - lia. }
  match goal with |- context [evict hand d ?s0] =>
    destruct (evict hand d s0) as [r s'] eqn:He end.
  eapply (evict_inv hand d) in He; eauto.
  destruct He as (_ & _ & -> & _). eauto.
Qed.

Lemma allocBuf_finds_invalid_frame s i di :
  BufInv s → bufDescTable s !! i = Some di → valid di = false →
  ∃ h s', allocBuf s = (inr h, s').
Proof.
  intros Hinv Hi Hvi. unfold allocBuf.
  assert (Hlt : i < numBufs s) by (eapply lookup_lt_Some; eauto).
  set (h1 := N.to_nat (((N.of_nat (clockHand s) + 1) mod UINT32_MOD)
                       mod N.of_nat (numBufs s))).
  assert (Hh1 : h1 < numBufs s) by (apply hand_in_range; lia).
  eapply (allocBuf_loop_reaches_invalid
            (if decide (h1 ≤ i) then i - h1 else numBufs s - h1 + i));
    eauto; fold h1; case_decide; try lia.
  - replace (h1 + (i - h1)) with i by lia. apply Nat.mod_small. lia.
  - replace (h1 + (numBufs s - h1 + i)) with (i + 1 * numBufs s) by lia.
    rewrite Nat.Div0.mod_add. apply Nat.mod_small. lia.
Qed.

(** ** Preservation of the invariant *)

Lemma readPage_inv f p s r s' :
  BufInv s → readPage f p s = (r, s') → BufInv s'.
Proof.
  intros Hinv H. unfold readPage in H. msimpl.
  destruct (hashTable s !! (Some f, p)) as [i|] eqn:Hk.
  - pose proof Hinv as (Hl & Hn & Hd & Ho).
    apply Hd in Hk as (d & Hi & Hv & Hkey).
    assert (Hlt : i < length (bufDescTable s)) by (eapply lookup_lt_Some; eauto).
    rewrite Hi in H. msimpl.
    destruct (decide (i < length (bufDescTable s))); [|lia]. msimpl.
    rewrite list_lookup_insert_eq in H by done. msimpl.
    assert (Hr1 : inv_on (<[i:=set_refbit true d]> (bufDescTable s))
                    (bufPool s) (hashTable s))
      by (eapply (inv_on_touch _ _ _ i d); eauto).
    destruct (decide (pinCnt (set_refbit true d) < INT_MAX)%Z); msimpl;
      [|injection H as <- <-; exact Hr1].
    rewrite length_insert in H.
    destruct (decide (i < length (bufDescTable s))); [|lia]. msimpl.
    injection H as <- <-. unfold BufInv; msimpl.
    eapply (inv_on_touch _ _ _ i (set_refbit true d)); [exact Hr1| |done|done].
    by rewrite list_lookup_insert_eq.
  - destruct (allocBuf s) as [[e|fr] s1] eqn:Ha; msimpl;
      apply (allocBuf_spec _ _ _ Hinv) in Ha as (Hi1 & Hsub & Hr).
    { injection H as <- <-. done. }
    destruct Hr as (d0 & Hfr & Hv0).
    pose proof Hi1 as (Hl & Hn & Hd & Ho).
    assert (Hlt : fr < length (bufDescTable s1)) by (eapply lookup_lt_Some; eauto).
    destruct (file_readPage f p (disk s1)) as [pg|]; msimpl;
      [|injection H as <- <-; exact Hi1].
    destruct (decide (fr < length (bufPool s1))); [|lia]. msimpl.
    destruct (hashTable s1 !! (Some f, p)) as [j|] eqn:Hk1.
    { apply Hsub in Hk1. congruence. }
    msimpl. rewrite Hfr in H. msimpl.
    destruct (decide (fr < length (bufDescTable s1))); [|lia]. msimpl.
    injection H as <- <-. unfold BufInv; msimpl.
    eapply inv_on_install; eauto.
    eapply inv_on_pool; eauto. by rewrite length_insert.
Qed.

Lemma unPinPage_inv f p b s r s' :
  BufInv s → unPinPage f p b s = (r, s') → BufInv s'.
Proof.
  intros Hinv H. unfold unPinPage in H. msimpl.
  destruct (hashTable s !! (Some f, p)) as [i|] eqn:Hk; msimpl;
    [|injection H as <- <-; done].
  pose proof Hinv as (Hl & Hn & Hd & Ho).
  apply Hd in Hk as (d & Hi & Hv & Hkey).
  assert (Hlt : i < length (bufDescTable s)) by (eapply lookup_lt_Some; eauto).
  assert (Hd1 : inv_on (<[i:=set_dirty true d]> (bufDescTable s))
                  (bufPool s) (hashTable s))
    by (eapply inv_on_touch; eauto).
  destruct b; msimpl; rewrite Hi in H; msimpl.
  - destruct (decide (i < length (bufDescTable s))); [|lia]. msimpl.
    rewrite list_lookup_insert_eq in H by done. msimpl.
    destruct (pinCnt (set_dirty true d) <=? 0)%Z; msimpl.
    + injection H as <- <-. exact Hd1.
    + rewrite length_insert in H.
      destruct (decide (i < length (bufDescTable s))); [|lia]. msimpl.
      injection H as <- <-. unfold BufInv; msimpl.
      eapply (inv_on_touch _ _ _ i (set_dirty true d)); eauto.
      by rewrite list_lookup_insert_eq.
  - destruct (pinCnt d <=? 0)%Z; msimpl.
    + injection H as <- <-. done.
    + destruct (decide (i < length (bufDescTable s))); [|lia]. msimpl.
      injection H as <- <-. unfold BufInv; msimpl.
      eapply (inv_on_touch _ _ _ i d); eauto.
Qed.

Lemma disposePage_inv f p s r s' :
  BufInv s → disposePage f p s = (r, s') → BufInv s'.
Proof.
  intros Hinv H. unfold disposePage in H. msimpl.
  destruct (hashTable s !! (Some f, p)) as [i|] eqn:Hk; msimpl;
    [|injection H as <- <-; done].
  pose proof Hinv as (Hl & Hn & Hd & Ho).
  rewrite Hk in H. msimpl.
  apply Hd in Hk as (d & Hi & Hv & Hkey).
  assert (Hlt : i < length (bufDescTable s)) by (eapply lookup_lt_Some; eauto).
  rewrite Hi in H. msimpl.
  destruct (decide (i < length (bufDescTable s))); [|lia]. msimpl.
  injection H as <- <-. unfold BufInv; msimpl.
  rewrite <- Hkey. eapply inv_on_evict; eauto.
Qed.

Lemma allocPage_inv f s r s' :
  BufInv s → allocPage f s = (r, s') → BufInv s'.
Proof.
  intros Hinv H. unfold allocPage in H. msimpl.
  destruct (file_allocatePage f (disk s)) as [pg dk]. msimpl.
  match type of H with context [allocBuf ?s0] =>
    assert (Hinv0 : BufInv s0) by exact Hinv;
    destruct (allocBuf s0) as [[e|fr] s1] eqn:Ha; msimpl;
    apply (allocBuf_spec _ _ _ Hinv0) in Ha as (Hi1 & Hsub & Hr)
  end.
  { injection H as <- <-. done. }
  destruct Hr as (d0 & Hfr & Hv0).
  pose proof Hi1 as (Hl & Hn & Hd & Ho).
  assert (Hlt : fr < length (bufDescTable s1)) by (eapply lookup_lt_Some; eauto).
  destruct (hashTable s1 !! (Some f, page_number pg)) as [j|] eqn:Hk1; msimpl.
  { injection H as <- <-. done. }
  rewrite Hfr in H. msimpl.
  destruct (decide (fr < length (bufDescTable s1))); [|lia]. msimpl.
  destruct (decide (fr < length (bufPool s1))); [|lia]. msimpl.
  injection H as <- <-. unfold BufInv; msimpl.
  eapply inv_on_pool; [|by rewrite length_insert].
  eapply inv_on_install; eauto.
Qed.

(** ** flushFile *)

Lemma flushFrame_blocked f i s d :
  bufDescTable s !! i = Some d → file d = Some f →
  ((0 < pinCnt d)%Z →
   flushFrame (Some f) i s =
     (inl (PagePinnedException (filename f) (pageNo d) i), s)) ∧
  ((pinCnt d ≤ 0)%Z → pageNo d = INVALID_NUMBER →
   flushFrame (Some f) i s =
     (inl (BadBufferException i (dirty d) (valid d) (refbit d)), s)).
Proof.
  intros Hi Hf. unfold flushFrame. msimpl. rewrite Hi. msimpl.
  destruct (decide (file d = Some f)); [|done].
  split.
  - intros Hp. destruct (0 <? pinCnt d)%Z eqn:Hpin; [|lia]. msimpl.
    rewrite Hf. done.
  - intros Hp Hn. destruct (0 <? pinCnt d)%Z eqn:Hpin; [lia|]. msimpl.
    destruct (decide (pageNo d = INVALID_NUMBER)); done.
Qed.

Lemma flushFrame_ok f i s d pg :
  BufInv s → bufDescTable s !! i = Some d → bufPool s !! i = Some pg →
  flushable f d →
  ∃ s1, flushFrame (Some f) i s = (inr tt, s1) ∧ BufInv s1 ∧
        bufDescTable s1 = <[i:=flush_desc f d]> (bufDescTable s) ∧
        bufPool s1 = bufPool s ∧ clockHand s1 = clockHand s ∧
        trace s1 = trace s ++ map (EvWritePage f) (frame_writes f d pg) ∧
        disk s1 = write_all f (frame_writes f d pg) (disk s).
Proof.
  intros Hinv Hi Hpg Hfl.
  assert (Hlt : i < length (bufDescTable s)) by (eapply lookup_lt_Some; eauto).
  unfold flushFrame, flush_desc, frame_writes. msimpl. rewrite Hi. msimpl.
  destruct (decide (file d = Some f)) as [Hf|Hf].
  2:{ exists s. rewrite list_insert_id by done. simpl.
      rewrite app_nil_r. done. }
  destruct (Hfl Hf) as [Hp Hn].
  pose proof Hinv as (Hl & Hsz & Hd & Ho).
  assert (Hv : valid d = true) by (apply (Ho _ _ Hi); rewrite Hf; eauto).
  assert (Hkey : hashTable s !! (Some f, pageNo d) = Some i).
  { apply Hd. exists d. unfold key_of. rewrite Hf. done. }
  destruct (0 <? pinCnt d)%Z eqn:Hpin; [lia|]. msimpl.
  destruct (decide (pageNo d = INVALID_NUMBER)); [done|].
  destruct (dirty d) eqn:Hdirty; msimpl; rewrite ?Hf, ?Hpg; msimpl.
  - destruct (decide (i < length (bufDescTable s))); [|lia]. msimpl.
    rewrite list_lookup_insert_eq by done. msimpl.
    cbn [set_dirty file pageNo]. rewrite Hf, Hkey. msimpl.
    rewrite length_insert.
    destruct (decide (i < length (bufDescTable s))); [|lia]. msimpl.
    eexists; split; [reflexivity|]. msimpl.
    rewrite list_insert_insert_eq. split_and!; try done.
    unfold BufInv; msimpl.
    eapply (inv_on_evict _ _ _ i d (Clear (set_dirty false d))) in Hinv; eauto.
    unfold key_of in Hinv. rewrite Hf in Hinv. exact Hinv.
  - rewrite Hi. msimpl. rewrite Hf, Hkey. msimpl.
    destruct (decide (i < length (bufDescTable s))); [|lia]. msimpl.
    eexists; split; [reflexivity|]. msimpl.
    rewrite app_nil_r. split_and!; try done.
    unfold BufInv; msimpl.
    eapply (inv_on_evict _ _ _ i d (Clear d)) in Hinv; eauto.
    unfold key_of in Hinv. rewrite Hf in Hinv. exact Hinv.
Qed.

Lemma flush_writes_step f ds pl i d pg m :
  ds !! i = Some d → pl !! i = Some pg →
  flush_writes f (take (S m) (drop i ds)) (take (S m) (drop i pl)) =
  frame_writes f d pg ++
  flush_writes f (take m (drop (S i) ds)) (take m (drop (S i) pl)).
Proof.
  intros Hd Hp.
  rewrite (drop_S ds d i Hd), (drop_S pl pg i Hp). done.
Qed.

Lemma write_all_app f l1 l2 dk :
  write_all f (l1 ++ l2) dk = write_all f l2 (write_all f l1 dk).
Proof. unfold write_all. by rewrite foldl_app. Qed.

(** The scan from frame [i] with [n] frames left: it processes [m]
    frames, and either reaches the end or stops at frame [i + m]. *)
Lemma flushFile_from_spec f n : ∀ i s r s',
  BufInv s → i + n = length (bufDescTable s) →
  flushFile_from (Some f) n i s = (r, s') →
  ∃ m, m ≤ n ∧ BufInv s' ∧
    bufPool s' = bufPool s ∧ clockHand s' = clockHand s ∧
    length (bufDescTable s') = length (bufDescTable s) ∧
    (∀ j d, bufDescTable s !! j = Some d →
            bufDescTable s' !! j =
              Some (if decide (i ≤ j < i + m) then flush_desc f d else d)) ∧
    (∀ j d, bufDescTable s !! j = Some d → i ≤ j < i + m → flushable f d) ∧
    trace s' = trace s ++
      map (EvWritePage f)
        (flush_writes f (take m (drop i (bufDescTable s)))
                        (take m (drop i (bufPool s)))) ∧
    disk s' =
      write_all f
        (flush_writes f (take m (drop i (bufDescTable s)))
                        (take m (drop i (bufPool s)))) (disk s) ∧
    match r with
    | inr _ => m = n
    | inl e =>
        ∃ d, bufDescTable s !! (i + m) = Some d ∧ file d = Some f ∧
             valid d = true ∧
             ((0 < pinCnt d)%Z ∧
              e = PagePinnedException (filename f) (pageNo d) (i + m) ∨
              (pinCnt d ≤ 0)%Z ∧ pageNo d = INVALID_NUMBER ∧
              e = BadBufferException (i + m) (dirty d) (valid d) (refbit d))
    end.
Proof.
  induction n as [|n IH]; intros i s r s' Hinv Hlen H; simpl in H.
  { injection H as <- <-. exists 0. simpl.
    rewrite app_nil_r. split_and!; try done.
    - intros j d Hj. case_decide; [lia|done].
    - intros; lia. }
  assert (Hlt : i < length (bufDescTable s)) by lia.
  destruct (lookup_lt_is_Some_2 _ _ Hlt) as [d Hi].
  pose proof Hinv as (Hl & Hsz & Hd & Ho).
  destruct (lookup_lt_is_Some_2 (bufPool s) i) as [pg Hpg]; [lia|].
  unfold bind in H.
  destruct (decide (flushable f d)) as [Hfl|Hnfl].
  - destruct (flushFrame_ok f i s d pg Hinv Hi Hpg Hfl)
      as (s1 & Hstep & Hinv1 & Hds1 & Hpl1 & Hh1 & Htr1 & Hdk1).
    rewrite Hstep in H.
    apply IH in H; [|done|rewrite Hds1, length_insert; lia].
    destruct H as (m & Hm & Hinv' & Hpl' & Hh' & Hlen' & Hds' & Hfl' & Htr' & Hdk' & Hr).
    exists (S m). rewrite Hds1 in *. rewrite length_insert in Hlen'.
    rewrite (flush_writes_step f _ _ i d pg m Hi Hpg).
    rewrite drop_insert_lt in Htr', Hdk' by lia. rewrite Hpl1 in *.
    split_and!; try done; try lia; try congruence.
    + intros j x Hj. destruct (decide (j = i)) as [->|Hne].
      * rewrite (Hds' i (flush_desc f d)) by (by rewrite list_lookup_insert_eq).
        repeat case_decide; try lia. congruence.
      * rewrite (Hds' j x) by (by rewrite list_lookup_insert_ne).
        repeat case_decide; try lia; done.
    + intros j x Hj Hr'. destruct (decide (j = i)) as [->|Hne];
        [by simplify_eq|].
      apply (Hfl' j x); [by rewrite list_lookup_insert_ne|lia].
    + rewrite Htr', Htr1, map_app, app_assoc. done.
    + rewrite Hdk', Hdk1, write_all_app. done.
    + destruct r as [e|]; [|lia].
      destruct Hr as (x & Hx & Hr). exists x.
      rewrite list_lookup_insert_ne in Hx by lia.
      replace (i + S m) with (S i + m) by lia. done.
  - assert (Hf : file d = Some f).
    { destruct (decide (file d = Some f)); [done|].
      exfalso. apply Hnfl. intros ?. done. }
    assert (Hv : valid d = true) by (apply (Ho _ _ Hi); rewrite Hf; eauto).
    destruct (flushFrame_blocked f i s d Hi Hf) as [Hpin Hbad].
    exists 0. rewrite Nat.add_0_r. simpl. rewrite app_nil_r.
    destruct (decide (0 < pinCnt d)%Z) as [Hp|Hp].
    + rewrite (Hpin Hp) in H. injection H as <- <-.
      split_and!; try done; try lia.
      * intros j x Hj. case_decide; [lia|done].
      * exists d. eauto 10.
    + destruct (decide (pageNo d = INVALID_NUMBER)) as [Hn|Hn].
      2:{ exfalso. apply Hnfl. intros _. split; [lia|done]. }
      rewrite (Hbad ltac:(lia) Hn) in H. injection H as <- <-.
      split_and!; try done; try lia.
      * intros j x Hj. case_decide; [lia|done].
      * exists d. split_and!; try done. right. split_and!; [lia|done|done].
Qed.

Lemma flushFrame_null i s r s1 :
  BufInv s → flushFrame None i s = (r, s1) → s1 = s.
Proof.
  intros Hinv H. unfold flushFrame in H. msimpl.
  destruct (bufDescTable s !! i) as [d|] eqn:Hi; msimpl; [|by injection H].
  destruct (decide (file d = None)) as [Hf|Hf]; [|by injection H].
  rewrite Hf in H.
  destruct (0 <? pinCnt d)%Z; msimpl; [by injection H|].
  destruct (decide (pageNo d = INVALID_NUMBER)); [by injection H|].
  destruct (dirty d); msimpl; [by injection H|].
  rewrite Hi in H. msimpl. rewrite Hf in H.
  destruct (hashTable s !! (None, pageNo d)) as [j|] eqn:Hk; msimpl;
    [|by injection H].
  destruct Hinv as (_ & _ & Hd & Ho).
  apply Hd in Hk as (x & Hx & Hvx & Hkx).
  apply (Ho _ _ Hx) in Hvx as [g Hg].
  unfold key_of in Hkx. congruence.
Qed.

Lemma flushFile_from_null n : ∀ i s r s',
  BufInv s → flushFile_from None n i s = (r, s') → s' = s.
Proof.
  induction n as [|n IH]; intros i s r s' Hinv H; simpl in H.
  { by injection H. }
  unfold bind in H.
  destruct (flushFrame None i s) as [[e|[]] s1] eqn:Hstep;
    apply flushFrame_null in Hstep as ->; try done.
  - by injection H.
  - eapply IH; eauto.
Qed.

Lemma flushFile_inv fp s r s' :
  BufInv s → flushFile fp s = (r, s') → BufInv s'.
Proof.
  intros Hinv H. unfold flushFile in H. destruct fp as [f|].
  - apply flushFile_from_spec in H as (m & _ & Hinv' & _); done.
  - apply flushFile_from_null in H as ->; done.
Qed.

Lemma run_preserves_BufInv op s : BufInv s → BufInv (run op s).2.
Proof.
  intros Hinv. destruct op; simpl.
  - destruct (readPage f p s) eqn:H. eapply readPage_inv; eauto.
  - destruct (allocPage f s) eqn:H. eapply allocPage_inv; eauto.
  - destruct (unPinPage f p dirty_arg s) eqn:H. eapply unPinPage_inv; eauto.
  - destruct (flushFile fp s) eqn:H. eapply flushFile_inv; eauto.
  - destruct (disposePage f p s) eqn:H. eapply disposePage_inv; eauto.
  - destruct (allocBuf s) eqn:H. eapply allocBuf_spec; eauto.
Qed.

Lemma run_all_preserves_BufInv ops : ∀ s, BufInv s → BufInv (run_all ops s).
Proof.
  induction ops as [|op ops IH]; intros s Hinv; simpl; [done|].
  apply IH. by apply run_preserves_BufInv.
Qed.

(** Every state reached from the constructor by operations satisfies the
    invariant. *)
Lemma reached_BufInv ops bufs dk :
  (N.of_nat bufs < UINT32_MOD)%N →
  BufInv (run_all ops (BufMgr_init bufs dk)).
Proof. intros Hb. by apply run_all_preserves_BufInv, BufInv_init. Qed.

(** C2: every public operation (and allocBuf), whether it returns or
    raises, leaves a state in which a frame is valid iff the directory
    maps its (file, pageNo) to it and no two valid frames hold the same
    (file, pageNo); the representation invariant [BufInv] it is proved
    through is itself preserved. *)
Theorem operations_preserve_directory_invariant op s :
  BufInv s →
  BufInv (run op s).2 ∧
  directory_agrees (run op s).2 ∧ frames_distinct (run op s).2.
Proof.
  intros Hinv. apply (run_preserves_BufInv op) in Hinv.
  split_and!; [done| |].
  - by apply BufInv_directory_agrees.
  - by apply BufInv_frames_distinct.
Qed.

(** ** The claims about flushFile *)

(** The whole scan: [m] frames processed, then the end or a blocked frame. *)
Lemma flushFile_outcome f s r s' :
  BufInv s → flushFile (Some f) s = (r, s') →
  ∃ m, m ≤ numBufs s ∧ BufInv s' ∧
    bufPool s' = bufPool s ∧ clockHand s' = clockHand s ∧
    length (bufDescTable s') = length (bufDescTable s) ∧
    (∀ j d, bufDescTable s !! j = Some d →
            bufDescTable s' !! j =
              Some (if decide (j < m) then flush_desc f d else d)) ∧
    (∀ j d, bufDescTable s !! j = Some d → j < m → flushable f d) ∧
    trace s' = trace s ++
      map (EvWritePage f)
        (flush_writes f (take m (bufDescTable s)) (take m (bufPool s))) ∧
    disk s' =
      write_all f
        (flush_writes f (take m (bufDescTable s)) (take m (bufPool s)))
        (disk s) ∧
    match r with
    | inr _ => m = numBufs s
    | inl e =>
        ∃ d, bufDescTable s !! m = Some d ∧ file d = Some f ∧
             valid d = true ∧
             ((0 < pinCnt d)%Z ∧
              e = PagePinnedException (filename f) (pageNo d) m ∨
              (pinCnt d ≤ 0)%Z ∧ pageNo d = INVALID_NUMBER ∧
              e = BadBufferException m (dirty d) (valid d) (refbit d))
    end.
Proof.
  intros Hinv H. unfold flushFile in H.
  apply flushFile_from_spec in H; [|done|done].
  destruct H as (m & Hm & Hinv' & Hpl & Hh & Hlen & Hds & Hfl & Htr & Hdk & Hr).
  exists m. rewrite !drop_0 in *. simpl in Hr. split_and!; try done.
  - intros j d Hj. rewrite (Hds j d Hj).
    repeat case_decide; try lia; done.
  - intros j d Hj Hlt. apply (Hfl j d Hj). lia.
Qed.

(** The directory after the first [m] frames have been flushed. *)
Lemma flushed_directory f s s' m :
  BufInv s → BufInv s' →
  length (bufDescTable s') = length (bufDescTable s) →
  (∀ j d, bufDescTable s !! j = Some d →
          bufDescTable s' !! j =
            Some (if decide (j < m) then flush_desc f d else d)) →
  (∀ k, k.1 ≠ Some f → hashTable s' !! k = hashTable s !! k) ∧
  (∀ j d, j < m → bufDescTable s !! j = Some d → file d = Some f →
          hashTable s' !! (Some f, pageNo d) = None).
Proof.
  intros Hinv Hinv' Hlen Hds.
  pose proof Hinv as (_ & _ & Hd & Ho).
  pose proof Hinv' as (_ & _ & Hd' & Ho').
  assert (Hback : ∀ j d', bufDescTable s' !! j = Some d' →
            ∃ d, bufDescTable s !! j = Some d ∧
                 d' = if decide (j < m) then flush_desc f d else d).
  { intros j d' Hj.
    destruct (lookup_lt_is_Some_2 (bufDescTable s) j) as [d Hjd].
    { rewrite <- Hlen. eapply lookup_lt_Some; eauto. }
    exists d. split; [done|]. rewrite (Hds j d Hjd) in Hj. congruence. }
  split.
  - intros k Hk. apply option_eq. intros j. rewrite Hd, Hd'. split.
    + intros (d' & Hj & Hv & Hkey).
      destruct (Hback j d' Hj) as (d & Hjd & ->). exists d.
      unfold flush_desc in *. repeat case_decide; done.
    + intros (d & Hj & Hv & Hkey). exists d.
      rewrite (Hds j d Hj). unfold flush_desc.
      repeat case_decide; try done.
      subst k. unfold key_of in Hk. simpl in Hk. done.
  - intros j d Hjm Hj Hf.
    destruct (hashTable s' !! (Some f, pageNo d)) as [x|] eqn:E; [|done].
    exfalso. apply Hd' in E as (d' & Hx & Hv & Hkey).
    destruct (Hback x d' Hx) as (dx & Hxd & ->).
    assert (Hvd : valid d = true) by (apply (Ho _ _ Hj); rewrite Hf; eauto).
    unfold flush_desc in *. unfold key_of in Hkey.
    repeat case_decide; simplify_eq/=.
    assert (x = j); [|lia].
    eapply (BufInv_frames_distinct s Hinv x j dx d); eauto; congruence.
Qed.

Lemma flush_writes_elem f ds : ∀ pl i d pg,
  ds !! i = Some d → pl !! i = Some pg →
  file d = Some f → dirty d = true → pg ∈ flush_writes f ds pl.
Proof.
  induction ds as [|x ds IH]; intros [|y pl] [|i] d pg Hd Hp Hf Hdirty;
    simplify_eq/=.
  - unfold frame_writes. rewrite decide_True by done. rewrite Hdirty.
    apply elem_of_app. left. by apply list_elem_of_singleton.
  - apply elem_of_app. right. eapply IH; eauto.
Qed.

(** flushFile on a file object [f].  At the first frame owned by [f] that
    is pinned it raises PagePinned; at the first one that is unpinned with
    pageNo = INVALID it raises BadBuffer, and that frame is then valid.
    When it raises at frame i, the frames of [f] below i have been
    processed and stay so: they are Cleared, their directory entries are
    gone and their dirty pages have been written; the frames from i on are
    untouched. *)
Lemma flushFile_object_errors f s :
  BufInv s →
  (∀ i d, bufDescTable s !! i = Some d → file d = Some f →
     (∀ j dj, j < i → bufDescTable s !! j = Some dj → flushable f dj) →
     ((0 < pinCnt d)%Z →
      (flushFile (Some f) s).1 =
        inl (PagePinnedException (filename f) (pageNo d) i)) ∧
     ((pinCnt d ≤ 0)%Z → pageNo d = INVALID_NUMBER →
      valid d = true ∧
      (flushFile (Some f) s).1 =
        inl (BadBufferException i (dirty d) true (refbit d)))) ∧
  (∀ e s', flushFile (Some f) s = (inl e, s') →
     ∃ i d, bufDescTable s !! i = Some d ∧ file d = Some f ∧
       valid d = true ∧
       ((0 < pinCnt d)%Z ∧
        e = PagePinnedException (filename f) (pageNo d) i ∨
        (pinCnt d ≤ 0)%Z ∧ pageNo d = INVALID_NUMBER ∧
        e = BadBufferException i (dirty d) true (refbit d)) ∧
       (∀ j dj, j < i → bufDescTable s !! j = Some dj → flushable f dj) ∧
       (∀ j dj, bufDescTable s !! j = Some dj →
                bufDescTable s' !! j =
                  Some (if decide (j < i) then flush_desc f dj else dj)) ∧
       (∀ j dj, j < i → bufDescTable s !! j = Some dj → file dj = Some f →
                hashTable s' !! (Some f, pageNo dj) = None) ∧
       trace s' = trace s ++
         map (EvWritePage f)
           (flush_writes f (take i (bufDescTable s)) (take i (bufPool s))) ∧
       disk s' =
         write_all f
           (flush_writes f (take i (bufDescTable s)) (take i (bufPool s)))
           (disk s)).
Proof.
  intros Hinv. split.
  - intros i d Hi Hf Hbefore.
    destruct (flushFile (Some f) s) as [r s'] eqn:H.
    destruct (flushFile_outcome f s r s' Hinv H)
      as (m & Hm & _ & _ & _ & _ & _ & Hfl & _ & _ & Hr).
    assert (Hlt : i < numBufs s) by (eapply lookup_lt_Some; eauto).
    assert (Hv : valid d = true).
    { destruct Hinv as (_ & _ & _ & Ho). apply (Ho _ _ Hi). rewrite Hf. eauto. }
    assert (Hcase : (0 < pinCnt d)%Z ∨ (pinCnt d ≤ 0)%Z ∧ pageNo d = INVALID_NUMBER →
              ∃ e, r = inl e ∧ m = i).
    { intros Hblocked. destruct r as [e|[]].
      - destruct Hr as (dm & Hdm & Hfm & _ & Hbm). exists e. split; [done|].
        destruct (Nat.lt_total m i) as [Hmi|[->|Hmi]]; [|done|].
        + destruct (Hbefore m dm Hmi Hdm Hfm) as [? ?].
          destruct Hbm as [[? _]|(? & ? & _)]; [lia|done].
        + destruct (Hfl i d Hi Hmi Hf) as [? ?].
          destruct Hblocked as [?|[? ?]]; [lia|done].
      - subst m. destruct (Hfl i d Hi Hlt Hf) as [? ?].
        destruct Hblocked as [?|[? ?]]; [lia|done]. }
    split.
    + intros Hp. destruct Hcase as (e & -> & ->); [by left|]. simpl.
      destruct Hr as (dm & Hdm & _ & _ & Hbm). simplify_eq.
      destruct Hbm as [[_ ->]|(? & _)]; [done|lia].
    + intros Hp Hn. split; [done|].
      destruct Hcase as (e & -> & ->); [by right|]. simpl.
      destruct Hr as (dm & Hdm & _ & _ & Hbm). simplify_eq.
      destruct Hbm as [[? _]|(_ & _ & ->)]; [lia|]. by rewrite Hv.
  - intros e s' H.
    destruct (flushFile_outcome f s _ s' Hinv H)
      as (m & Hm & Hinv' & Hpl & _ & Hlen & Hds & Hfl & Htr & Hdk & Hr).
    destruct Hr as (d & Hd & Hf & Hv & Hb).
    destruct (flushed_directory f s s' m Hinv Hinv' Hlen Hds) as [_ Hgone].
    exists m, d. split_and!; try done.
    + rewrite Hv in Hb. done.
    + intros j dj Hj Hdj. by apply (Hfl j dj).
Qed.

(** A frame without owner, under the invariants, is as Clear leaves it. *)
Lemma ownerless_frame_empty s i d :
  BufInv s → PinInv s → bufDescTable s !! i = Some d → file d = None →
  valid d = false ∧ pinCnt d = 0%Z ∧ pageNo d = INVALID_NUMBER ∧
  dirty d = false ∧ refbit d = false.
Proof.
  intros (_ & _ & _ & Ho) Hpin Hi Hf.
  assert (Hv : valid d = false).
  { destruct (valid d) eqn:Hv; [|done].
    apply (Ho _ _ Hi) in Hv as [g Hg]. congruence. }
  destruct (Hpin i d Hi) as (_ & _ & Hc). rewrite (Hc Hv). done.
Qed.

Lemma flushFile_from_null_spec n : ∀ k s r s',
  BufInv s → PinInv s → k + n = length (bufDescTable s) →
  flushFile_from None n k s = (r, s') →
  s' = s ∧
  match r with
  | inr _ => ∀ j dj, k ≤ j → bufDescTable s !! j = Some dj → file dj ≠ None
  | inl e =>
      ∃ i d, k ≤ i ∧ bufDescTable s !! i = Some d ∧ file d = None ∧
        (∀ j dj, k ≤ j < i → bufDescTable s !! j = Some dj → file dj ≠ None) ∧
        e = BadBufferException i false false false
  end.
Proof.
  induction n as [|n IH]; intros k s r s' Hinv Hpin Hlen H; simpl in H.
  { injection H as <- <-. split; [done|]. intros j dj Hj Hdj.
    apply lookup_lt_Some in Hdj. lia. }
  assert (Hlt : k < length (bufDescTable s)) by lia.
  destruct (lookup_lt_is_Some_2 _ _ Hlt) as [d Hk].
  unfold bind at 1 in H. unfold flushFrame in H. msimpl.
  rewrite Hk in H. msimpl.
  destruct (decide (file d = None)) as [Hf|Hf].
  - destruct (ownerless_frame_empty s k d Hinv Hpin Hk Hf)
      as (Hv & Hp & Hn & Hdi & Hr).
    rewrite Hp in H. simpl in H.
    destruct (decide (pageNo d = INVALID_NUMBER)); [|done].
    msimpl. injection H as <- <-. split; [done|].
    exists k, d. rewrite Hv, Hdi, Hr. split_and!; try done.
    intros j dj ?. lia.
  - apply IH in H; [|done|done|lia].
    destruct H as (-> & Hr). split; [done|]. destruct r as [e|[]].
    + destruct Hr as (i & x & Hi & Hx & Hfx & Hbefore & ->).
      exists i, x. split_and!; try done; [lia|].
      intros j dj Hj Hdj. destruct (decide (j = k)) as [->|Hne].
      * congruence.
      * apply (Hbefore j dj); [lia|done].
    + intros j dj Hj Hdj. destruct (decide (j = k)) as [->|Hne].
      * congruence.
      * apply (Hr j dj); [lia|done].
Qed.

(** C4 (as the code has it): flushFile scans the frames in order and tests
    only whether the owner of a frame equals its argument.  For a file
    object it raises PagePinned at the first frame of the file that is
    pinned and BadBuffer at the first that is unpinned with pageNo =
    INVALID, a frame that is then valid; the frames of the file below that
    frame have been processed and stay so (Cleared, out of the directory,
    dirty pages written), the frames from it on are untouched.  The only
    other case in which BadBuffer is raised is a null pointer: it equals
    the absent owner of an empty frame, so BadBuffer is raised at the first
    empty frame, with valid = false, and nothing has been changed. *)
Theorem flushFile_error_spec s :
  BufInv s → PinInv s →
  (∀ f i d, bufDescTable s !! i = Some d → file d = Some f →
     (∀ j dj, j < i → bufDescTable s !! j = Some dj → flushable f dj) →
     ((0 < pinCnt d)%Z →
      (flushFile (Some f) s).1 =
        inl (PagePinnedException (filename f) (pageNo d) i)) ∧
     ((pinCnt d ≤ 0)%Z → pageNo d = INVALID_NUMBER →
      valid d = true ∧
      (flushFile (Some f) s).1 =
        inl (BadBufferException i (dirty d) true (refbit d)))) ∧
  (∀ f e s', flushFile (Some f) s = (inl e, s') →
     ∃ i d, bufDescTable s !! i = Some d ∧ file d = Some f ∧
       valid d = true ∧
       ((0 < pinCnt d)%Z ∧
        e = PagePinnedException (filename f) (pageNo d) i ∨
        (pinCnt d ≤ 0)%Z ∧ pageNo d = INVALID_NUMBER ∧
        e = BadBufferException i (dirty d) true (refbit d)) ∧
       (∀ j dj, j < i → bufDescTable s !! j = Some dj → flushable f dj) ∧
       (∀ j dj, bufDescTable s !! j = Some dj →
                bufDescTable s' !! j =
                  Some (if decide (j < i) then flush_desc f dj else dj)) ∧
       (∀ j dj, j < i → bufDescTable s !! j = Some dj → file dj = Some f →
                hashTable s' !! (Some f, pageNo dj) = None) ∧
       trace s' = trace s ++
         map (EvWritePage f)
           (flush_writes f (take i (bufDescTable s)) (take i (bufPool s))) ∧
       disk s' =
         write_all f
           (flush_writes f (take i (bufDescTable s)) (take i (bufPool s)))
           (disk s)) ∧
  (∀ i d, bufDescTable s !! i = Some d → file d = None →
     (∀ j dj, j < i → bufDescTable s !! j = Some dj → file dj ≠ None) →
     valid d = false ∧
     flushFile None s = (inl (BadBufferException i false false false), s)) ∧
  (∀ fp i dt v r s',
     flushFile fp s = (inl (BadBufferException i dt v r), s') →
     ∃ d, bufDescTable s !! i = Some d ∧ file d = fp ∧
          pageNo d = INVALID_NUMBER ∧ (pinCnt d ≤ 0)%Z ∧ valid d = v ∧
          (v = true ↔ is_Some fp)).
Proof.
  intros Hinv Hpin. split_and!.
  - intros f. apply (flushFile_object_errors f s Hinv).
  - intros f. apply (flushFile_object_errors f s Hinv).
  - intros i d Hi Hf Hbefore.
    destruct (ownerless_frame_empty s i d Hinv Hpin Hi Hf) as (Hv & _).
    split; [done|].
    destruct (flushFile None s) as [r s'] eqn:H. unfold flushFile in H.
    apply flushFile_from_null_spec in H as (-> & Hr); [|done|done|done].
    destruct r as [e|[]].
    + destruct Hr as (i' & x & _ & Hx & Hfx & Hbefore' & ->).
      destruct (Nat.lt_total i' i) as [Hlt|[->|Hlt]]; [|done|].
      * by destruct (Hbefore i' x Hlt Hx).
      * destruct (Hbefore' i d); [lia|done|done].
    + destruct (Hr i d); [lia|done|done].
  - intros fp i dt v r s' H. destruct fp as [f|].
    + destruct (proj2 (flushFile_object_errors f s Hinv) _ _ H)
        as (i' & d & Hd & Hf & Hv & He & _).
      destruct He as [[_ He]|(Hp & Hn & He)]; [done|].
      injection He as -> -> -> ->. exists d.
      split_and!; try done; split; eauto.
    + unfold flushFile in H.
      apply flushFile_from_null_spec in H as (-> & Hr); [|done|done|done].
      destruct Hr as (i' & d & _ & Hd & Hf & _ & He).
      injection He as -> -> -> ->.
      destruct (ownerless_frame_empty s i' d Hinv Hpin Hd Hf)
        as (Hv & Hp & Hn & _).
      exists d. split_and!; try done; lia.
Qed.

(** C5: when flushFile(file) returns normally no frame is owned by file:
    every frame that file owned is Cleared and its directory entry is gone,
    the dirty ones among them have been written back with file.writePage
    (these are all the calls made on files, in frame order), and the frames
    and directory entries of other files are unchanged. *)
Theorem flushFile_return_spec f s s' :
  BufInv s → flushFile (Some f) s = (inr tt, s') →
  (∀ i d', bufDescTable s' !! i = Some d' → file d' ≠ Some f) ∧
  (∀ i d, bufDescTable s !! i = Some d → file d = Some f →
          bufDescTable s' !! i = Some (Clear d) ∧
          hashTable s' !! (Some f, pageNo d) = None) ∧
  (∀ i d, bufDescTable s !! i = Some d → file d ≠ Some f →
          bufDescTable s' !! i = Some d) ∧
  (∀ k, k.1 ≠ Some f → hashTable s' !! k = hashTable s !! k) ∧
  bufPool s' = bufPool s ∧
  trace s' = trace s ++
    map (EvWritePage f) (flush_writes f (bufDescTable s) (bufPool s)) ∧
  disk s' =
    write_all f (flush_writes f (bufDescTable s) (bufPool s)) (disk s) ∧
  (∀ i d pg, bufDescTable s !! i = Some d → bufPool s !! i = Some pg →
             file d = Some f → dirty d = true →
             EvWritePage f pg ∈ trace s').
Proof.
  intros Hinv H.
  destruct (flushFile_outcome f s _ s' Hinv H)
    as (m & Hm & Hinv' & Hpl & _ & Hlen & Hds & Hfl & Htr & Hdk & ->).
  destruct (flushed_directory f s s' _ Hinv Hinv' Hlen Hds) as [Hother Hgone].
  pose proof Hinv as (Hl & _ & _ & _).
  unfold numBufs in *.
  rewrite (take_ge (bufDescTable s)) in Htr, Hdk by lia.
  rewrite (take_ge (bufPool s)) in Htr, Hdk by lia.
  assert (Hcl : ∀ i d, bufDescTable s !! i = Some d →
            bufDescTable s' !! i = Some (flush_desc f d)).
  { intros i d Hi. rewrite (Hds i d Hi).
    apply lookup_lt_Some in Hi. case_decide; [done|lia]. }
  split_and!; try done.
  - intros i d' Hi'.
    destruct (lookup_lt_is_Some_2 (bufDescTable s) i) as [d Hi].
    { rewrite <- Hlen. eapply lookup_lt_Some; eauto. }
    rewrite (Hcl i d Hi) in Hi'. injection Hi' as <-.
    unfold flush_desc. case_decide; [done|done].
  - intros i d Hi Hf. split.
    + rewrite (Hcl i d Hi). unfold flush_desc. case_decide; done.
    + apply (Hgone i d); [|done|done]. eapply lookup_lt_Some; eauto.
  - intros i d Hi Hf. rewrite (Hcl i d Hi). unfold flush_desc.
    case_decide; done.
  - intros i d pg Hi Hpg Hf Hdirty. rewrite Htr.
    apply elem_of_app. right. apply list_elem_of_fmap. exists pg.
    split; [done|]. eapply flush_writes_elem; eauto.
Qed.

(** ** readPage *)

(** C3: on a directory hit readPage sets refbit, adds exactly 1 to pinCnt
    (the counter is an int: below INT_MAX, where the increment is defined)
    and returns the frame of the page; every other field of the descriptor,
    every other frame, the pool, the directory and the files are as before,
    so no call is made on the file.  On a miss it takes the frame that
    allocBuf returns, calls file.readPage, stores the page in that frame's
    pool slot, enters (file, pageNo) in the directory and Sets the
    descriptor: valid, pinCnt 1, not dirty, refbit set. *)
Theorem readPage_spec f p s :
  (∀ i d, hashTable s !! (Some f, p) = Some i →
          bufDescTable s !! i = Some d → (pinCnt d < INT_MAX)%Z →
          ∃ s' d',
            readPage f p s = (inr i, s') ∧
            bufDescTable s' !! i = Some d' ∧
            refbit d' = true ∧ pinCnt d' = (pinCnt d + 1)%Z ∧
            valid d' = valid d ∧ dirty d' = dirty d ∧
            file d' = file d ∧ pageNo d' = pageNo d ∧
            frameNo d' = frameNo d ∧
            (∀ j, j ≠ i → bufDescTable s' !! j = bufDescTable s !! j) ∧
            bufPool s' = bufPool s ∧ hashTable s' = hashTable s ∧
            clockHand s' = clockHand s ∧
            disk s' = disk s ∧ trace s' = trace s) ∧
  (∀ fr s1 pg,
     BufInv s → hashTable s !! (Some f, p) = None →
     allocBuf s = (inr fr, s1) →
     file_readPage f p (disk s1) = Some pg →
     ∃ d0 s',
       bufDescTable s1 !! fr = Some d0 ∧
       readPage f p s = (inr fr, s') ∧
       s' = mkState (<[fr:=Set_ f p d0]> (bufDescTable s1))
                    (<[fr:=pg]> (bufPool s1))
                    (<[(Some f, p):=fr]> (hashTable s1))
                    (clockHand s1) (disk s1)
                    (trace s1 ++ [EvReadPage f p]) ∧
       bufPool s' !! fr = Some pg ∧
       hashTable s' !! (Some f, p) = Some fr ∧
       ∃ d', bufDescTable s' !! fr = Some d' ∧
             file d' = Some f ∧ pageNo d' = p ∧ valid d' = true ∧
             pinCnt d' = 1%Z ∧ dirty d' = false ∧ refbit d' = true).
Proof.
  split.
  - intros i d Hk Hi Hmax.
    assert (Hlt : i < length (bufDescTable s)) by (eapply lookup_lt_Some; eauto).
    unfold readPage. msimpl. rewrite Hk. msimpl. rewrite Hi. msimpl.
    destruct (decide (i < length (bufDescTable s))); [|lia]. msimpl.
    rewrite list_lookup_insert_eq by done. msimpl.
    cbn [set_refbit pinCnt].
    destruct (decide (pinCnt d < INT_MAX)%Z); [|lia]. msimpl.
    rewrite length_insert.
    destruct (decide (i < length (bufDescTable s))); [|lia]. msimpl.
    rewrite list_insert_insert_eq.
    eexists _, _. split; [reflexivity|]. msimpl.
    rewrite list_lookup_insert_eq by done.
    split; [reflexivity|]. cbn [set_pinCnt set_refbit refbit pinCnt valid dirty
                                 file pageNo frameNo].
    split_and!; try done.
    intros j Hne. by rewrite list_lookup_insert_ne.
  - intros fr s1 pg Hinv Hk Ha Hrd.
    destruct (allocBuf_spec _ _ _ Hinv Ha) as (Hinv1 & Hsub & d0 & Hfr & Hv0).
    pose proof Hinv1 as (Hl & Hn & Hd & Ho).
    assert (Hlt : fr < length (bufDescTable s1)) by (eapply lookup_lt_Some; eauto).
    assert (Hk1 : hashTable s1 !! (Some f, p) = None).
    { destruct (hashTable s1 !! (Some f, p)) as [j|] eqn:E; [|done].
      apply Hsub in E. congruence. }
    exists d0. eexists. split; [done|].
    unfold readPage. msimpl. rewrite Hk. msimpl. rewrite Ha. msimpl.
    rewrite Hrd. msimpl.
    destruct (decide (fr < length (bufPool s1))); [|lia]. msimpl.
    rewrite Hk1. msimpl. rewrite Hfr. msimpl.
    destruct (decide (fr < length (bufDescTable s1))); [|lia]. msimpl.
    split; [reflexivity|]. split; [reflexivity|]. msimpl.
    split_and!.
    + rewrite list_lookup_insert_eq by lia. done.
    + by rewrite lookup_insert_eq.
    + exists (Set_ f p d0). rewrite list_lookup_insert_eq by done. done.
Qed.

(** C8: when, on a readPage miss, file.readPage raises, the exception
    propagates and the frame that allocBuf returned is left empty: it is
    invalid, the directory has no entry for (file, pageNo), and no key of
    the directory maps to that frame. *)
Theorem readPage_file_failure_leaves_frame_empty f p s fr s1 :
  BufInv s → hashTable s !! (Some f, p) = None →
  allocBuf s = (inr fr, s1) →
  file_readPage f p (disk s1) = None →
  ∃ s', readPage f p s = (inl FileException, s') ∧
        (∃ d, bufDescTable s' !! fr = Some d ∧ valid d = false) ∧
        hashTable s' !! (Some f, p) = None ∧
        (∀ k, hashTable s' !! k ≠ Some fr).
Proof.
  intros Hinv Hk Ha Hrd.
  destruct (allocBuf_spec _ _ _ Hinv Ha) as (Hinv1 & Hsub & d0 & Hfr & Hv0).
  eexists. split.
  { unfold readPage. msimpl. rewrite Hk. msimpl. rewrite Ha. msimpl.
    rewrite Hrd. reflexivity. }
  msimpl. split_and!.
  - eauto.
  - destruct (hashTable s1 !! (Some f, p)) as [j|] eqn:E; [|done].
    apply Hsub in E. congruence.
  - intros k Hkfr. destruct Hinv1 as (_ & _ & Hd & _).
    apply Hd in Hkfr as (x & Hx & Hvx & _). congruence.
Qed.

(** ** allocPage *)

(** C9 (as the code has it): allocPage calls file.allocatePage before
    allocBuf.  When allocBuf then raises BufferExceeded, allocPage
    propagates it; the only call made on the file is that allocatePage, so
    the file is left as allocatePage left it, with the new page allocated. *)
Theorem allocPage_BufferExceeded_keeps_allocation f s pg dk s1 :
  BufInv s →
  file_allocatePage f (disk s) = (pg, dk) →
  allocBuf (with_disk dk (EvAllocatePage f) s) =
    (inl BufferExceededException, s1) →
  allocPage f s = (inl BufferExceededException, s1) ∧
  disk s1 = dk ∧ trace s1 = trace s ++ [EvAllocatePage f] ∧
  hashTable s1 = hashTable s.
Proof.
  intros Hinv Hal Ha.
  assert (Hinv0 : BufInv (with_disk dk (EvAllocatePage f) s)) by exact Hinv.
  destruct (allocBuf_spec _ _ _ Hinv0 Ha) as (_ & _ & Hdk & Htr & Hht & _).
  split; [|done].
  unfold allocPage. msimpl. rewrite Hal. msimpl.
  unfold with_disk in Ha. rewrite Ha. done.
Qed.

(** ** unPinPage *)

(** C6: unPinPage on a page that is not in the directory returns and
    changes nothing; on a resident page with pinCnt = 0 it raises
    PageNotPinned with the file name, the page number and the frame number;
    on a resident page with pinCnt > 0 it returns, pinCnt is one less, and
    refbit (like every field but pinCnt and dirty) is as before. *)
Theorem unPinPage_spec f p b s :
  (hashTable s !! (Some f, p) = None → unPinPage f p b s = (inr tt, s)) ∧
  (∀ i d, hashTable s !! (Some f, p) = Some i →
          bufDescTable s !! i = Some d → pinCnt d = 0%Z →
          (unPinPage f p b s).1 =
            inl (PageNotPinnedException (filename f) p i)) ∧
  (∀ i d, hashTable s !! (Some f, p) = Some i →
          bufDescTable s !! i = Some d → (0 < pinCnt d)%Z →
          ∃ d', unPinPage f p b s =
                  (inr tt, with_descs (<[i:=d']> (bufDescTable s)) s) ∧
                pinCnt d' = (pinCnt d - 1)%Z ∧ refbit d' = refbit d ∧
                dirty d' = (if b then true else dirty d) ∧
                valid d' = valid d ∧ file d' = file d ∧
                pageNo d' = pageNo d ∧ frameNo d' = frameNo d).
Proof.
  split_and!.
  - intros Hk. unfold unPinPage. msimpl. rewrite Hk. done.
  - intros i d Hk Hi Hp.
    assert (Hlt : i < length (bufDescTable s)) by (eapply lookup_lt_Some; eauto).
    unfold unPinPage. msimpl. rewrite Hk. msimpl.
    destruct b; msimpl; rewrite Hi; msimpl.
    + destruct (decide (i < length (bufDescTable s))); [|lia]. msimpl.
      rewrite list_lookup_insert_eq by done. msimpl.
      cbn [set_dirty pinCnt]. rewrite Hp. done.
    + rewrite Hp. done.
  - intros i d Hk Hi Hp.
    assert (Hlt : i < length (bufDescTable s)) by (eapply lookup_lt_Some; eauto).
    unfold unPinPage. msimpl. rewrite Hk. msimpl.
    destruct b; msimpl; rewrite Hi; msimpl.
    + destruct (decide (i < length (bufDescTable s))); [|lia]. msimpl.
      rewrite list_lookup_insert_eq by done. msimpl.
      cbn [set_dirty pinCnt].
      destruct (pinCnt d <=? 0)%Z eqn:Hle; [lia|]. msimpl.
      rewrite length_insert.
      destruct (decide (i < length (bufDescTable s))); [|lia]. msimpl.
      rewrite list_insert_insert_eq.
      eexists; split; [reflexivity|]. done.
    + destruct (pinCnt d <=? 0)%Z eqn:Hle; [lia|]. msimpl.
      destruct (decide (i < length (bufDescTable s))); [|lia]. msimpl.
      eexists; split; [reflexivity|]. done.
Qed.

(** C10: on a resident page whose frame has pinCnt = 0, unPinPage with
    dirty = true raises PageNotPinned and leaves the state with the dirty
    bit of that frame set, whatever it was before. *)
Theorem unPinPage_not_pinned_sets_dirty f p s i d :
  hashTable s !! (Some f, p) = Some i →
  bufDescTable s !! i = Some d → pinCnt d = 0%Z →
  unPinPage f p true s =
    (inl (PageNotPinnedException (filename f) p i),
     with_descs (<[i:=set_dirty true d]> (bufDescTable s)) s) ∧
  ∃ d', bufDescTable (unPinPage f p true s).2 !! i = Some d' ∧
        dirty d' = true.
Proof.
  intros Hk Hi Hp.
  assert (Hlt : i < length (bufDescTable s)) by (eapply lookup_lt_Some; eauto).
  assert (Heq : unPinPage f p true s =
    (inl (PageNotPinnedException (filename f) p i),
     with_descs (<[i:=set_dirty true d]> (bufDescTable s)) s)).
  { unfold unPinPage. msimpl. rewrite Hk. msimpl. rewrite Hi. msimpl.
    destruct (decide (i < length (bufDescTable s))); [|lia]. msimpl.
    rewrite list_lookup_insert_eq by done. msimpl.
    cbn [set_dirty pinCnt]. rewrite Hp. done. }
  split; [exact Heq|]. rewrite Heq. msimpl.
  exists (set_dirty true d). by rewrite list_lookup_insert_eq.
Qed.

(** ** disposePage *)

(** C7: disposePage on a resident page removes its directory entry and
    Clears its frame; the only call made on the file is deletePage(pageNo)
    (nothing is written back, dirty or not).  On a page that is not
    resident it returns normally, having called deletePage(pageNo) and
    nothing else. *)
Theorem disposePage_spec f p s :
  (∀ i d, hashTable s !! (Some f, p) = Some i →
          bufDescTable s !! i = Some d →
          disposePage f p s =
            (inr tt,
             mkState (<[i:=Clear d]> (bufDescTable s)) (bufPool s)
                     (delete (Some f, p) (hashTable s)) (clockHand s)
                     (file_deletePage f p (disk s))
                     (trace s ++ [EvDeletePage f p]))) ∧
  (hashTable s !! (Some f, p) = None →
   disposePage f p s =
     (inr tt,
      mkState (bufDescTable s) (bufPool s) (hashTable s) (clockHand s)
              (file_deletePage f p (disk s))
              (trace s ++ [EvDeletePage f p]))).
Proof.
  split.
  - intros i d Hk Hi.
    assert (Hlt : i < length (bufDescTable s)) by (eapply lookup_lt_Some; eauto).
    unfold disposePage. msimpl. rewrite Hk. msimpl. rewrite Hk. msimpl.
    rewrite Hi. msimpl.
    destruct (decide (i < length (bufDescTable s))); [|lia]. done.
  - intros Hk. unfold disposePage. msimpl. rewrite Hk. done.
Qed.

End Verification.

(** * Further properties of the manager *)

Section Coverage.

Context {FC : FileContract}.

Ltac msimpl :=
  cbv beta iota zeta delta
    [bind ret throw catch_HashNotFound getDesc setDesc getPool
     setPool deref int_incr call_readPage call_writePage call_allocatePage
     call_deletePage ht_lookup ht_insert ht_remove getHand advanceClock
     with_descs with_pool with_hash with_hand with_disk] in *;
  cbn [bufDescTable bufPool hashTable clockHand disk trace fst snd] in *.

(** ** The effect of allocBuf on the tables *)

Lemma aged_trans d d1 d2 : aged d d1 → aged d1 d2 → aged d d2.
Proof. unfold aged. intros [->| ->] [->| ->]; eauto. Qed.

(** The victim of an eviction, in terms of the state before it. *)
Lemma evict_effect h d s r s' :
  BufInv s → bufDescTable s !! h = Some d → valid d = true →
  evict h d s = (r, s') →
  r = inr h ∧ clockHand s' = clockHand s ∧ bufPool s' = bufPool s ∧
  bufDescTable s' = <[h:=Clear d]> (bufDescTable s) ∧
  hashTable s' = delete (key_of d) (hashTable s) ∧
  ∃ f pg, file d = Some f ∧ bufPool s !! h = Some pg ∧
    trace s' = trace s ++ map (EvWritePage f) (if dirty d then [pg] else []) ∧
    disk s' = write_all f (if dirty d then [pg] else []) (disk s).
Proof.
  intros Hinv Hh Hv He.
  pose proof Hinv as (Hl & Hn & Hd & Ho).
  assert (Hlt : h < length (bufDescTable s)) by (eapply lookup_lt_Some; eauto).
  assert (Hkey : hashTable s !! key_of d = Some h) by (apply Hd; eauto).
  destruct (proj1 (Ho _ _ Hh) Hv) as [f Hf].
  destruct (lookup_lt_is_Some_2 (bufPool s) h) as [pg Hpg]; [lia|].
  unfold evict, key_of in *. rewrite Hf in Hkey.
  destruct (dirty d); msimpl; rewrite ?Hf, ?Hpg in He; msimpl;
    rewrite Hkey in He; msimpl;
    (destruct (decide (h < length (bufDescTable s))); [|lia]);
    injection He as <- <-; msimpl; rewrite ?Hf;
    (split_and!; try done); exists f, pg; split_and!; try done.
  by rewrite app_nil_r.
Qed.

Lemma allocBuf_loop_effect fuel : ∀ pc s r s',
  BufInv s → allocBuf_loop fuel pc s = (r, s') →
  bufPool s' = bufPool s ∧
  length (bufDescTable s') = length (bufDescTable s) ∧
  match r with
  | inl _ =>
      hashTable s' = hashTable s ∧ disk s' = disk s ∧ trace s' = trace s ∧
      (∀ j dj, bufDescTable s !! j = Some dj →
               ∃ dj', bufDescTable s' !! j = Some dj' ∧ aged dj dj')
  | inr h =>
      clockHand s' = h ∧
      ∃ d, bufDescTable s !! h = Some d ∧
        (∀ j dj, j ≠ h → bufDescTable s !! j = Some dj →
                 ∃ dj', bufDescTable s' !! j = Some dj' ∧ aged dj dj') ∧
        if valid d then
          (pinCnt d ≤ 0)%Z ∧
          bufDescTable s' !! h = Some (Clear d) ∧
          hashTable s' = delete (key_of d) (hashTable s) ∧
          ∃ f pg, file d = Some f ∧ bufPool s !! h = Some pg ∧
            trace s' = trace s ++
              map (EvWritePage f) (if dirty d then [pg] else []) ∧
            disk s' = write_all f (if dirty d then [pg] else []) (disk s)
        else
          bufDescTable s' !! h = Some d ∧ hashTable s' = hashTable s ∧
          trace s' = trace s ∧ disk s' = disk s
  end.
Proof.
  induction fuel as [|fuel IH]; intros pc s r s' Hinv H; simpl in H;
    case_decide;
    try (injection H as <- <-; split_and!; try done;
         intros j dj Hj; exists dj; split; [done|by left]).
  msimpl. set (hand := N.to_nat _) in H.
  destruct (bufDescTable s !! hand) as [d|] eqn:Hh;
    [|injection H as <- <-; split_and!; try done;
      intros j dj Hj; exists dj; split; [done|by left]].
  destruct (valid d) eqn:Hv; simpl in H.
  2:{ injection H as <- <-. msimpl. split_and!; try done.
      exists d. rewrite Hv. split_and!; try done.
      intros j dj _ Hj. exists dj. split; [done|by left]. }
  assert (Hlt : hand < length (bufDescTable s)) by (eapply lookup_lt_Some; eauto).
  destruct (refbit d) eqn:Hr; msimpl.
  { destruct (decide (hand < length (bufDescTable s))); [|lia]. msimpl.
    apply IH in H; [|eapply inv_on_touch; eauto].
    msimpl. rewrite length_insert in H.
    destruct H as (Hpl & Hlen & Hres). split_and!; try done.
    assert (Hstep : ∀ j dj, bufDescTable s !! j = Some dj →
              ∃ d1, <[hand:=set_refbit false d]> (bufDescTable s) !! j = Some d1 ∧
                    aged dj d1).
    { intros j dj Hj. destruct (decide (j = hand)) as [->|Hne].
      - rewrite list_lookup_insert_eq by done. simplify_eq.
        eexists; split; [done|by right].
      - rewrite list_lookup_insert_ne by done.
        exists dj. split; [done|by left]. }
    destruct r as [e|h].
    - destruct Hres as (? & ? & ? & Hds). split_and!; try done.
      intros j dj Hj. destruct (Hstep j dj Hj) as (d1 & Hj1 & Ha1).
      destruct (Hds j d1 Hj1) as (d2 & Hj2 & Ha2).
      exists d2. split; [done|]. eapply aged_trans; eauto.
    - destruct Hres as (Hh' & d1 & Hh1 & Hoth & Hvict).
      split; [done|].
      destruct (lookup_lt_is_Some_2 (bufDescTable s) h) as [d0 Hh0].
      { apply lookup_lt_Some in Hh1. by rewrite length_insert in Hh1. }
      exists d0. split; [done|]. split.
      + intros j dj Hne Hj. destruct (Hstep j dj Hj) as (dj1 & Hj1 & Haj).
        destruct (Hoth j dj1 Hne Hj1) as (dj2 & Hj2 & Haj2).
        exists dj2. split; [done|]. eapply aged_trans; eauto.
      + destruct (decide (h = hand)) as [Heq|Hne].
        * rewrite Heq in *. rewrite list_lookup_insert_eq in Hh1 by done.
          simplify_eq. cbn in Hvict. rewrite Hv in *. exact Hvict.
        * rewrite list_lookup_insert_ne in Hh1 by done. simplify_eq.
          exact Hvict. }
  destruct (0 <? pinCnt d)%Z eqn:Hpin.
  { apply IH in H; [|exact Hinv]. exact H. }
  eapply (evict_effect hand d) in H; eauto.
  destruct H as (-> & Hh' & Hpl & Hds & Hht & Hw).
  msimpl. rewrite Hds, length_insert. split_and!; try done.
  exists d. rewrite Hv. split_and!; try done.
  - intros j dj Hne Hj. exists dj.
    rewrite list_lookup_insert_ne by done. split; [done|by left].
  - lia.
  - by rewrite list_lookup_insert_eq.
Qed.

(** ** The operations, case by case *)

Lemma readPage_cases f p s :
  BufInv s →
  match hashTable s !! (Some f, p) with
  | Some i =>
      ∃ d, bufDescTable s !! i = Some d ∧ valid d = true ∧
           key_of d = (Some f, p) ∧
           readPage f p s =
             if decide (pinCnt d < INT_MAX)%Z then
               (inr i,
                with_descs
                  (<[i:=set_pinCnt (pinCnt d + 1) (set_refbit true d)]>
                     (bufDescTable s)) s)
             else
               (inl Fault,
                with_descs (<[i:=set_refbit true d]> (bufDescTable s)) s)
  | None =>
      match allocBuf s with
      | (inl e, s1) => readPage f p s = (inl e, s1)
      | (inr fr, s1) =>
          match file_readPage f p (disk s1) with
          | None =>
              readPage f p s =
                (inl FileException, with_disk (disk s1) (EvReadPage f p) s1)
          | Some pg =>
              ∃ d0, bufDescTable s1 !! fr = Some d0 ∧ valid d0 = false ∧
                    hashTable s1 !! (Some f, p) = None ∧
                    readPage f p s =
                      (inr fr,
                       mkState (<[fr:=Set_ f p d0]> (bufDescTable s1))
                               (<[fr:=pg]> (bufPool s1))
                               (<[(Some f, p):=fr]> (hashTable s1))
                               (clockHand s1) (disk s1)
                               (trace s1 ++ [EvReadPage f p]))
          end
      end
  end.
Proof.
  intros Hinv. pose proof Hinv as (Hl & Hn & Hd & Ho).
  destruct (hashTable s !! (Some f, p)) as [i|] eqn:Hk.
  - pose proof Hk as Hk'. apply Hd in Hk' as (d & Hi & Hv & Hkey).
    assert (Hlt : i < length (bufDescTable s)) by (eapply lookup_lt_Some; eauto).
    exists d. split_and!; try done.
    unfold readPage. msimpl. rewrite Hk. msimpl. rewrite Hi. msimpl.
    destruct (decide (i < length (bufDescTable s))); [|lia]. msimpl.
    rewrite list_lookup_insert_eq by done. msimpl.
    cbn [set_refbit pinCnt].
    destruct (decide (pinCnt d < INT_MAX)%Z); msimpl; [|done].
    rewrite length_insert.
    destruct (decide (i < length (bufDescTable s))); [|lia]. msimpl.
    rewrite list_insert_insert_eq. done.
  - destruct (allocBuf s) as [[e|fr] s1] eqn:Ha.
    { unfold readPage. msimpl. rewrite Hk. msimpl. rewrite Ha. done. }
    destruct (allocBuf_spec _ _ _ Hinv Ha) as (Hinv1 & Hsub & d0 & Hfr & Hv0).
    pose proof Hinv1 as (Hl1 & _).
    assert (Hlt : fr < length (bufDescTable s1)) by (eapply lookup_lt_Some; eauto).
    assert (Hk1 : hashTable s1 !! (Some f, p) = None).
    { destruct (hashTable s1 !! (Some f, p)) as [j|] eqn:E; [|done].
      apply Hsub in E. congruence. }
    destruct (file_readPage f p (disk s1)) as [pg|] eqn:Hrd.
    + exists d0. split_and!; try done.
      unfold readPage. msimpl. rewrite Hk. msimpl. rewrite Ha. msimpl.
      rewrite Hrd. msimpl.
      destruct (decide (fr < length (bufPool s1))); [|lia]. msimpl.
      rewrite Hk1. msimpl. rewrite Hfr. msimpl.
      destruct (decide (fr < length (bufDescTable s1))); [|lia]. done.
    + unfold readPage. msimpl. rewrite Hk. msimpl. rewrite Ha. msimpl.
      rewrite Hrd. done.
Qed.

Lemma unPinPage_cases f p b s :
  BufInv s →
  match hashTable s !! (Some f, p) with
  | None => unPinPage f p b s = (inr tt, s)
  | Some i =>
      ∃ d, bufDescTable s !! i = Some d ∧ valid d = true ∧
           key_of d = (Some f, p) ∧
           if (pinCnt d <=? 0)%Z then
             unPinPage f p b s =
               (inl (PageNotPinnedException (filename f) p i),
                if b then with_descs (<[i:=set_dirty true d]> (bufDescTable s)) s
                else s)
           else
             unPinPage f p b s =
               (inr tt,
                with_descs
                  (<[i:=set_pinCnt (pinCnt d - 1)
                          (if b then set_dirty true d else d)]>
                     (bufDescTable s)) s)
  end.
Proof.
  intros Hinv. pose proof Hinv as (Hl & Hn & Hd & Ho).
  destruct (hashTable s !! (Some f, p)) as [i|] eqn:Hk.
  2:{ unfold unPinPage. msimpl. rewrite Hk. done. }
  pose proof Hk as Hk'. apply Hd in Hk' as (d & Hi & Hv & Hkey).
  assert (Hlt : i < length (bufDescTable s)) by (eapply lookup_lt_Some; eauto).
  exists d. split_and!; try done.
  unfold unPinPage. msimpl. rewrite Hk. msimpl.
  destruct b; msimpl; rewrite Hi; msimpl.
  - destruct (decide (i < length (bufDescTable s))); [|lia]. msimpl.
    rewrite list_lookup_insert_eq by done. msimpl.
    cbn [set_dirty pinCnt].
    destruct (pinCnt d <=? 0)%Z; msimpl; [done|].
    rewrite length_insert.
    destruct (decide (i < length (bufDescTable s))); [|lia]. msimpl.
    rewrite list_insert_insert_eq. done.
  - destruct (pinCnt d <=? 0)%Z; msimpl; [done|].
    destruct (decide (i < length (bufDescTable s))); [|lia]. done.
Qed.

Lemma disposePage_cases f p s :
  BufInv s →
  match hashTable s !! (Some f, p) with
  | None =>
      disposePage f p s =
        (inr tt, with_disk (file_deletePage f p (disk s)) (EvDeletePage f p) s)
  | Some i =>
      ∃ d, bufDescTable s !! i = Some d ∧ valid d = true ∧
           key_of d = (Some f, p) ∧
           disposePage f p s =
             (inr tt,
              mkState (<[i:=Clear d]> (bufDescTable s)) (bufPool s)
                      (delete (Some f, p) (hashTable s)) (clockHand s)
                      (file_deletePage f p (disk s))
                      (trace s ++ [EvDeletePage f p]))
  end.
Proof.
  intros Hinv. pose proof Hinv as (Hl & Hn & Hd & Ho).
  destruct (hashTable s !! (Some f, p)) as [i|] eqn:Hk.
  2:{ unfold disposePage. msimpl. rewrite Hk. done. }
  pose proof Hk as Hk'. apply Hd in Hk' as (d & Hi & Hv & Hkey).
  assert (Hlt : i < length (bufDescTable s)) by (eapply lookup_lt_Some; eauto).
  exists d. split_and!; try done.
  unfold disposePage. msimpl. rewrite Hk. msimpl. rewrite Hk. msimpl.
  rewrite Hi. msimpl.
  destruct (decide (i < length (bufDescTable s))); [|lia]. done.
Qed.

Lemma allocPage_cases f s :
  BufInv s →
  let pg := (file_allocatePage f (disk s)).1 in
  let dk := (file_allocatePage f (disk s)).2 in
  match allocBuf (with_disk dk (EvAllocatePage f) s) with
  | (inl e, s1) => allocPage f s = (inl e, s1)
  | (inr fr, s1) =>
      match hashTable s1 !! (Some f, page_number pg) with
      | Some _ => allocPage f s = (inl HashAlreadyPresentException, s1)
      | None =>
          ∃ d0, bufDescTable s1 !! fr = Some d0 ∧ valid d0 = false ∧
                allocPage f s =
                  (inr (page_number pg, fr),
                   mkState (<[fr:=Set_ f (page_number pg) d0]> (bufDescTable s1))
                           (<[fr:=pg]> (bufPool s1))
                           (<[(Some f, page_number pg):=fr]> (hashTable s1))
                           (clockHand s1) (disk s1) (trace s1))
      end
  end.
Proof.
  intros Hinv pg dk. subst pg dk.
  destruct (file_allocatePage f (disk s)) as [pg dk] eqn:Hal. cbn [fst snd].
  assert (Hinv0 : BufInv (with_disk dk (EvAllocatePage f) s)) by exact Hinv.
  destruct (allocBuf (with_disk dk (EvAllocatePage f) s)) as [[e|fr] s1] eqn:Ha.
  { unfold allocPage. msimpl. rewrite Hal. msimpl. rewrite Ha. done. }
  destruct (allocBuf_spec _ _ _ Hinv0 Ha) as (Hinv1 & Hsub & d0 & Hfr & Hv0).
  pose proof Hinv1 as (Hl1 & _).
  assert (Hlt : fr < length (bufDescTable s1)) by (eapply lookup_lt_Some; eauto).
  destruct (hashTable s1 !! (Some f, page_number pg)) as [j|] eqn:Hk1.
  { unfold allocPage. msimpl. rewrite Hal. msimpl. rewrite Ha. msimpl.
    rewrite Hk1. done. }
  exists d0. split_and!; try done.
  unfold allocPage. msimpl. rewrite Hal. msimpl. rewrite Ha. msimpl.
  rewrite Hk1. msimpl. rewrite Hfr. msimpl.
  destruct (decide (fr < length (bufDescTable s1))); [|lia]. msimpl.
  destruct (decide (fr < length (bufPool s1))); [|lia]. done.
Qed.

(** ** allocBuf as a whole *)

Lemma allocBuf_effect s r s' :
  BufInv s → allocBuf s = (r, s') →
  bufPool s' = bufPool s ∧
  length (bufDescTable s') = length (bufDescTable s) ∧
  match r with
  | inl _ =>
      hashTable s' = hashTable s ∧ disk s' = disk s ∧ trace s' = trace s ∧
      (∀ j dj, bufDescTable s !! j = Some dj →
               ∃ dj', bufDescTable s' !! j = Some dj' ∧ aged dj dj')
  | inr h =>
      clockHand s' = h ∧
      ∃ d, bufDescTable s !! h = Some d ∧
        (∀ j dj, j ≠ h → bufDescTable s !! j = Some dj →
                 ∃ dj', bufDescTable s' !! j = Some dj' ∧ aged dj dj') ∧
        if valid d then
          (pinCnt d ≤ 0)%Z ∧
          bufDescTable s' !! h = Some (Clear d) ∧
          hashTable s' = delete (key_of d) (hashTable s) ∧
          ∃ f pg, file d = Some f ∧ bufPool s !! h = Some pg ∧
            trace s' = trace s ++
              map (EvWritePage f) (if dirty d then [pg] else []) ∧
            disk s' = write_all f (if dirty d then [pg] else []) (disk s)
        else
          bufDescTable s' !! h = Some d ∧ hashTable s' = hashTable s ∧
          trace s' = trace s ∧ disk s' = disk s
  end.
Proof. intros Hinv H. by eapply allocBuf_loop_effect. Qed.

(** Pinned frames survive allocBuf: at most their reference bit changes,
    and their directory entries stay. *)
Lemma allocBuf_keeps_pinned s r s' i d :
  BufInv s → allocBuf s = (r, s') →
  bufDescTable s !! i = Some d → valid d = true → (0 < pinCnt d)%Z →
  (∀ h, r = inr h → h ≠ i) ∧
  ∃ d', bufDescTable s' !! i = Some d' ∧ aged d d' ∧
        hashTable s' !! key_of d = Some i.
Proof.
  intros Hinv H Hi Hv Hp.
  pose proof Hinv as (_ & _ & Hd & _).
  assert (Hk : hashTable s !! key_of d = Some i) by (apply Hd; eauto).
  destruct (allocBuf_effect s r s' Hinv H) as (_ & _ & Hr).
  destruct r as [e|h].
  - destruct Hr as (-> & _ & _ & Hds). split; [done|].
    destruct (Hds i d Hi) as (d' & ? & ?). eauto.
  - destruct Hr as (_ & dv & Hh & Hoth & Hvict).
    assert (Hne : h ≠ i).
    { intros ->. simplify_eq. rewrite Hv in Hvict. lia. }
    split; [by intros ? [= <-]|].
    destruct (Hoth i d (not_eq_sym Hne) Hi) as (d' & Hi' & Ha).
    exists d'. split_and!; try done.
    destruct (valid dv) eqn:Hvv.
    + destruct Hvict as (_ & _ & -> & _).
      rewrite lookup_delete_ne; [done|].
      intros Heq. apply Hne.
      eapply (BufInv_frames_distinct s Hinv h i dv d); eauto;
        unfold key_of in Heq; congruence.
    + by destruct Hvict as (_ & -> & _).
Qed.

(** ** The invariant on the descriptors *)

Lemma frame_ok_aged i d d' : frame_ok i d → aged d d' → frame_ok i d'.
Proof.
  intros (Hn & Hp & Hc) [->| ->]; [done|].
  split_and!; try done. simpl. intros Hv. rewrite (Hc Hv). done.
Qed.

Lemma frame_ok_Clear i d : frameNo d = i → frame_ok i (Clear d).
Proof. intros Hn. by split_and!. Qed.

Lemma frame_ok_Set i f p d : frameNo d = i → frame_ok i (Set_ f p d).
Proof. intros Hn. by split_and!. Qed.

Lemma PinInv_insert s s' i d' :
  PinInv s → frame_ok i d' →
  bufDescTable s' = <[i:=d']> (bufDescTable s) → PinInv s'.
Proof.
  intros Hpin Hok Heq j d Hj. rewrite Heq in Hj.
  destruct (decide (j = i)) as [->|Hne].
  - apply list_lookup_insert_Some in Hj as [(_ & <- & _)|[? ?]]; [done|done].
  - rewrite list_lookup_insert_ne in Hj by done. by apply Hpin.
Qed.

Lemma PinInv_init bufs dk : PinInv (BufMgr_init bufs dk).
Proof.
  intros i d Hd. unfold BufMgr_init in Hd; simpl in Hd.
  rewrite list_lookup_fmap in Hd.
  destruct (seq 0 bufs !! i) as [j|] eqn:Hj; simplify_eq/=.
  apply lookup_seq in Hj as [-> _]. split_and!; done.
Qed.

Lemma allocBuf_PinInv s r s' :
  BufInv s → PinInv s → allocBuf s = (r, s') → PinInv s'.
Proof.
  intros Hinv Hpin H j dj' Hj'.
  destruct (allocBuf_effect s r s' Hinv H) as (_ & Hlen & Hr).
  destruct (lookup_lt_is_Some_2 (bufDescTable s) j) as [dj Hj].
  { rewrite <- Hlen. eapply lookup_lt_Some; eauto. }
  pose proof (Hpin j dj Hj) as Hok.
  destruct r as [e|h].
  - destruct Hr as (_ & _ & _ & Hds).
    destruct (Hds j dj Hj) as (x & Hx & Ha). simplify_eq.
    eapply frame_ok_aged; eauto.
  - destruct Hr as (_ & dv & Hh & Hoth & Hvict).
    destruct (decide (j = h)) as [->|Hne].
    + assert (dj = dv) by congruence. subst dj. destruct (valid dv).
      * destruct Hvict as (_ & Hc & _).
        assert (dj' = Clear dv) by congruence. subst dj'.
        apply frame_ok_Clear. apply Hok.
      * destruct Hvict as (Hc & _).
        assert (dj' = dv) by congruence. by subst dj'.
    + destruct (Hoth j dj Hne Hj) as (x & Hx & Ha). simplify_eq.
      eapply frame_ok_aged; eauto.
Qed.

Lemma readPage_PinInv f p s r s' :
  BufInv s → PinInv s → readPage f p s = (r, s') → PinInv s'.
Proof.
  intros Hinv Hpin H. pose proof (readPage_cases f p s Hinv) as Hc.
  destruct (hashTable s !! (Some f, p)) as [i|].
  - destruct Hc as (d & Hi & Hv & _ & Heq). rewrite Heq in H.
    destruct (Hpin i d Hi) as (Hn & Hp & _).
    case_decide; injection H as <- <-;
      (eapply (PinInv_insert s _ i); [done| |reflexivity]);
      (split_and!; [done|simpl; lia|simpl; congruence]).
  - destruct (allocBuf s) as [[e|fr] s1] eqn:Ha;
      pose proof (allocBuf_PinInv _ _ _ Hinv Hpin Ha) as Hpin1.
    { rewrite Hc in H. by injection H as <- <-. }
    destruct (file_readPage f p (disk s1)) as [pg|].
    + destruct Hc as (d0 & Hfr & _ & _ & Heq). rewrite Heq in H.
      injection H as <- <-. destruct (Hpin1 fr d0 Hfr) as (Hn & _).
      eapply (PinInv_insert s1 _ fr); [done| |reflexivity].
      by apply frame_ok_Set.
    + rewrite Hc in H. by injection H as <- <-.
Qed.

Lemma unPinPage_PinInv f p b s r s' :
  BufInv s → PinInv s → unPinPage f p b s = (r, s') → PinInv s'.
Proof.
  intros Hinv Hpin H. pose proof (unPinPage_cases f p b s Hinv) as Hc.
  destruct (hashTable s !! (Some f, p)) as [i|].
  2:{ rewrite Hc in H. by injection H as <- <-. }
  destruct Hc as (d & Hi & Hv & _ & Heq).
  destruct (Hpin i d Hi) as (Hn & Hp & _).
  destruct (pinCnt d <=? 0)%Z eqn:Hle; rewrite Heq in H; injection H as <- <-.
  - destruct b; [|done].
    eapply (PinInv_insert s _ i); [done| |reflexivity].
    split_and!; [done|done|simpl; congruence].
  - eapply (PinInv_insert s _ i); [done| |reflexivity].
    destruct b; (split_and!; [done|simpl; lia|simpl; congruence]).
Qed.

Lemma disposePage_PinInv f p s r s' :
  BufInv s → PinInv s → disposePage f p s = (r, s') → PinInv s'.
Proof.
  intros Hinv Hpin H. pose proof (disposePage_cases f p s Hinv) as Hc.
  destruct (hashTable s !! (Some f, p)) as [i|].
  2:{ rewrite Hc in H. by injection H as <- <-. }
  destruct Hc as (d & Hi & Hv & _ & Heq). rewrite Heq in H.
  injection H as <- <-. destruct (Hpin i d Hi) as (Hn & _).
  eapply (PinInv_insert s _ i); [done| |reflexivity].
  by apply frame_ok_Clear.
Qed.

Lemma allocPage_PinInv f s r s' :
  BufInv s → PinInv s → allocPage f s = (r, s') → PinInv s'.
Proof.
  intros Hinv Hpin H. pose proof (allocPage_cases f s Hinv) as Hc.
  cbv zeta in Hc.
  set (s0 := with_disk _ _ s) in Hc.
  assert (Hinv0 : BufInv s0) by exact Hinv.
  assert (Hpin0 : PinInv s0) by exact Hpin.
  destruct (allocBuf s0) as [[e|fr] s1] eqn:Ha;
    pose proof (allocBuf_PinInv _ _ _ Hinv0 Hpin0 Ha) as Hpin1.
  { rewrite Hc in H. by injection H as <- <-. }
  destruct (hashTable s1 !! _) as [j|].
  { rewrite Hc in H. by injection H as <- <-. }
  destruct Hc as (d0 & Hfr & _ & Heq). rewrite Heq in H.
  injection H as <- <-. destruct (Hpin1 fr d0 Hfr) as (Hn & _).
  eapply (PinInv_insert s1 _ fr); [done| |reflexivity].
  by apply frame_ok_Set.
Qed.

Lemma flushFile_PinInv fp s r s' :
  BufInv s → PinInv s → flushFile fp s = (r, s') → PinInv s'.
Proof.
  intros Hinv Hpin H. destruct fp as [f|].
  2:{ unfold flushFile in H. by apply flushFile_from_null in H as ->. }
  destruct (flushFile_outcome f s r s' Hinv H)
    as (m & _ & _ & _ & _ & Hlen & Hds & _).
  intros j dj' Hj'.
  destruct (lookup_lt_is_Some_2 (bufDescTable s) j) as [dj Hj].
  { rewrite <- Hlen. eapply lookup_lt_Some; eauto. }
  rewrite (Hds j dj Hj) in Hj'. injection Hj' as <-.
  pose proof (Hpin j dj Hj) as Hok.
  unfold flush_desc. repeat case_decide; try done.
  apply frame_ok_Clear, Hok.
Qed.

Lemma run_preserves_PinInv op s :
  BufInv s → PinInv s → PinInv (run op s).2.
Proof.
  intros Hinv Hpin. destruct op; simpl.
  - destruct (readPage f p s) eqn:H. eapply readPage_PinInv; eauto.
  - destruct (allocPage f s) eqn:H. eapply allocPage_PinInv; eauto.
  - destruct (unPinPage f p dirty_arg s) eqn:H. eapply unPinPage_PinInv; eauto.
  - destruct (flushFile fp s) eqn:H. eapply flushFile_PinInv; eauto.
  - destruct (disposePage f p s) eqn:H. eapply disposePage_PinInv; eauto.
  - destruct (allocBuf s) eqn:H. eapply allocBuf_PinInv; eauto.
Qed.

Lemma reached_PinInv ops : ∀ s,
  BufInv s → PinInv s → PinInv (run_all ops s).
Proof.
  induction ops as [|op ops IH]; intros s Hinv Hpin; simpl; [done|].
  apply IH; [by apply run_preserves_BufInv|by apply run_preserves_PinInv].
Qed.

(** ** A pinned page stays where it is *)

Lemma aged_fields d d' :
  aged d d' →
  valid d' = valid d ∧ key_of d' = key_of d ∧ pinCnt d' = pinCnt d ∧
  dirty d' = dirty d ∧ frameNo d' = frameNo d.
Proof. by intros [->| ->]. Qed.

Lemma touched_frame_kept (ds : list BufDesc) i j d dj dj' :
  ds !! i = Some d → ds !! j = Some dj →
  valid d = true → valid dj' = valid dj → key_of dj' = key_of dj →
  ∃ d', <[j:=dj']> ds !! i = Some d' ∧ valid d' = true ∧ key_of d' = key_of d.
Proof.
  intros Hi Hj Hv Hv' Hk'. destruct (decide (i = j)) as [->|Hne].
  - exists dj'. rewrite list_lookup_insert_eq by (eapply lookup_lt_Some; eauto).
    assert (dj = d) by congruence. subst dj.
    split_and!; [done|congruence|done].
  - exists d. rewrite list_lookup_insert_ne by done. done.
Qed.

Lemma pinned_page_kept op s i d :
  BufInv s → bufDescTable s !! i = Some d →
  valid d = true → (0 < pinCnt d)%Z →
  (∀ f p, op = OpDisposePage f p → key_of d ≠ (Some f, p)) →
  bufPool (run op s).2 !! i = bufPool s !! i ∧
  ∃ d', bufDescTable (run op s).2 !! i = Some d' ∧
        valid d' = true ∧ key_of d' = key_of d.
Proof.
  intros Hinv Hi Hv Hp Hnd.
  assert (Hfresh : ∀ r1 s1, allocBuf s = (r1, s1) →
            bufPool s1 = bufPool s ∧
            (∀ fr, r1 = inr fr → fr ≠ i) ∧
            ∃ d1, bufDescTable s1 !! i = Some d1 ∧ valid d1 = true ∧
                  key_of d1 = key_of d).
  { intros r1 s1 Ha.
    destruct (allocBuf_effect s r1 s1 Hinv Ha) as (Hpl & _).
    destruct (allocBuf_keeps_pinned s r1 s1 i d Hinv Ha Hi Hv Hp)
      as (Hne & d1 & Hi1 & Hag & _).
    destruct (aged_fields d d1 Hag) as (Hv1 & Hk1 & _).
    split_and!; try done. exists d1. split_and!; congruence. }
  destruct op; simpl.
  - pose proof (readPage_cases f p s Hinv) as Hc.
    destruct (hashTable s !! (Some f, p)) as [j|].
    + destruct Hc as (dj & Hj & _ & _ & ->).
      case_decide; simpl; (split; [done|]);
        eapply touched_frame_kept; eauto.
    + destruct (allocBuf s) as [[e|fr] s1] eqn:Ha;
        destruct (Hfresh _ _ eq_refl) as (Hpl & Hne & d1 & Hi1 & Hv1 & Hk1).
      { rewrite Hc. simpl. rewrite Hpl. eauto. }
      specialize (Hne fr eq_refl).
      destruct (file_readPage f p (disk s1)) as [pg|].
      * destruct Hc as (d0 & _ & _ & _ & ->). simpl.
        rewrite !list_lookup_insert_ne by done. rewrite Hpl. eauto.
      * rewrite Hc. simpl. rewrite Hpl. eauto.
  - pose proof (allocPage_cases f s Hinv) as Hc. cbv zeta in Hc.
    set (s0 := with_disk _ _ s) in Hc.
    assert (Hinv0 : BufInv s0) by exact Hinv.
    destruct (allocBuf s0) as [[e|fr] s1] eqn:Ha.
    1,2: destruct (allocBuf_effect s0 _ s1 Hinv0 Ha) as (Hpl & _);
      destruct (allocBuf_keeps_pinned s0 _ s1 i d Hinv0 Ha Hi Hv Hp)
        as (Hne & d1 & Hi1 & Hag & _);
      destruct (aged_fields d d1 Hag) as (Hv1 & Hk1 & _).
    { rewrite Hc. simpl. rewrite Hpl. split; [done|].
      exists d1. split_and!; congruence. }
    specialize (Hne fr eq_refl).
    destruct (hashTable s1 !! _) as [j|].
    { rewrite Hc. simpl. rewrite Hpl. split; [done|].
      exists d1. split_and!; congruence. }
    destruct Hc as (d0 & _ & _ & ->). simpl.
    rewrite !list_lookup_insert_ne by done. rewrite Hpl. split; [done|].
    exists d1. split_and!; congruence.
  - pose proof (unPinPage_cases f p dirty_arg s Hinv) as Hc.
    destruct (hashTable s !! (Some f, p)) as [j|].
    2:{ rewrite Hc. simpl. eauto. }
    destruct Hc as (dj & Hj & _ & _ & Hc).
    destruct (pinCnt dj <=? 0)%Z; rewrite Hc; simpl.
    + destruct dirty_arg; simpl; [|eauto]. split; [done|].
      eapply touched_frame_kept; eauto.
    + split; [done|]. eapply touched_frame_kept; eauto; by destruct dirty_arg.
  - destruct (flushFile fp s) as [r s'] eqn:H. simpl. destruct fp as [f|].
    2:{ unfold flushFile in H. apply flushFile_from_null in H as ->; eauto. }
    destruct (flushFile_outcome f s r s' Hinv H)
      as (m & _ & _ & Hpl & _ & _ & Hds & Hfl & _).
    rewrite Hpl. split; [done|]. rewrite (Hds i d Hi).
    eexists. split; [done|]. case_decide as Hm; [|done].
    unfold flush_desc. case_decide as Hf; [|done].
    destruct (Hfl i d Hi Hm Hf). lia.
  - pose proof (disposePage_cases f p s Hinv) as Hc.
    destruct (hashTable s !! (Some f, p)) as [j|].
    2:{ rewrite Hc. simpl. eauto. }
    destruct Hc as (dj & Hj & _ & Hkj & ->). simpl. split; [done|].
    assert (Hne : i ≠ j).
    { intros ->. simplify_eq. by apply (Hnd f p). }
    rewrite list_lookup_insert_ne by done. eauto.
  - destruct (allocBuf s) as [r1 s1] eqn:Ha. simpl.
    destruct (Hfresh _ _ eq_refl) as (Hpl & _ & Hd1). rewrite Hpl. eauto.
Qed.

(** ** The destructor *)

Lemma writeBack_from_spec n : ∀ i s,
  BufInv s → i + n = length (bufDescTable s) →
  ∃ s', writeBack_from n i s = (inr tt, s') ∧
    bufDescTable s' = bufDescTable s ∧ bufPool s' = bufPool s ∧
    hashTable s' = hashTable s ∧ clockHand s' = clockHand s ∧
    trace s' = trace s ++
      map write_event
        (write_backs (drop i (bufDescTable s)) (drop i (bufPool s))) ∧
    disk s' =
      write_each
        (write_backs (drop i (bufDescTable s)) (drop i (bufPool s)))
        (disk s).
Proof.
  induction n as [|n IH]; intros i s Hinv Hlen; simpl.
  { exists s. pose proof Hinv as (Hl & _).
    rewrite !drop_ge by lia. simpl. rewrite app_nil_r. done. }
  pose proof Hinv as (Hl & Hsz & Hd & Ho).
  assert (Hlt : i < length (bufDescTable s)) by lia.
  destruct (lookup_lt_is_Some_2 _ _ Hlt) as [d Hi].
  destruct (lookup_lt_is_Some_2 (bufPool s) i) as [pg Hpg]; [lia|].
  rewrite (drop_S _ _ _ Hi), (drop_S _ _ _ Hpg). simpl.
  unfold bind at 1. unfold writeBackFrame, frame_write_back. msimpl.
  rewrite Hi. msimpl.
  destruct (valid d && dirty d) eqn:Hvd; msimpl.
  - apply andb_prop in Hvd as [Hv _].
    destruct (proj1 (Ho _ _ Hi) Hv) as [f Hf]. rewrite Hf. msimpl.
    rewrite Hpg. msimpl.
    match goal with |- context [writeBack_from n (S i) ?s0] =>
      destruct (IH (S i) s0) as (s' & Heq & Hds & Hpl & Hht & Hh & Htr & Hdk);
        [exact Hinv|simpl; lia|] end.
    msimpl. exists s'. rewrite Heq. split_and!; try done.
    + rewrite Htr. simpl. by rewrite <- app_assoc.
  - destruct (IH (S i) s) as (s' & Heq & Hds & Hpl & Hht & Hh & Htr & Hdk);
      [done|lia|].
    exists s'. rewrite Heq. done.
Qed.

Lemma write_backs_elem ds : ∀ pl i d pg f,
  ds !! i = Some d → pl !! i = Some pg →
  valid d = true → dirty d = true → file d = Some f →
  (f, pg) ∈ write_backs ds pl.
Proof.
  induction ds as [|x ds IH]; intros [|y pl] [|i] d pg f Hd Hp Hv Hdirty Hf;
    simplify_eq/=.
  - unfold frame_write_back. rewrite Hv, Hdirty, Hf. simpl.
    apply list_elem_of_here.
  - apply elem_of_app. right. eapply IH; eauto.
Qed.

(** ** The clock hand *)

Lemma advance_n_spec k : ∀ s,
  numBufs s ≠ 0 → (N.of_nat (numBufs s) < UINT32_MOD)%N →
  clockHand s < numBufs s →
  clockHand (advance_n k s) = (clockHand s + k) mod numBufs s ∧
  bufDescTable (advance_n k s) = bufDescTable s ∧
  bufPool (advance_n k s) = bufPool s ∧
  hashTable (advance_n k s) = hashTable s.
Proof.
  induction k as [|k IH]; intros s Hn Hsz Hh.
  - simpl. rewrite Nat.add_0_r, Nat.mod_small by done. done.
  - destruct (IH s Hn Hsz Hh) as (Hk & Hds & Hpl & Hht).
    unfold advance_n in *. rewrite Nat.iter_succ.
    unfold advanceClock at 1. cbn [snd].
    unfold with_hand. cbn [clockHand bufDescTable bufPool hashTable].
    split_and!; try done.
    unfold numBufs in *. rewrite Hds, Hk.
    rewrite advance_in_range; [|apply Nat.mod_upper_bound; done|done].
    rewrite Nat.Div0.add_mod_idemp_l. f_equal. lia.
Qed.

(** ** flushFile of a file without frames *)

Lemma flushFile_from_absent f n : ∀ i s,
  (∀ j d, bufDescTable s !! j = Some d → file d ≠ Some f) →
  i + n = length (bufDescTable s) →
  flushFile_from (Some f) n i s = (inr tt, s).
Proof.
  induction n as [|n IH]; intros i s Hno Hlen; simpl; [done|].
  assert (Hlt : i < length (bufDescTable s)) by lia.
  destruct (lookup_lt_is_Some_2 _ _ Hlt) as [d Hi].
  unfold bind at 1. unfold flushFrame. msimpl. rewrite Hi. msimpl.
  destruct (decide (file d = Some f)) as [Hf|Hf]; [by destruct (Hno i d Hi)|].
  apply IH; [done|lia].
Qed.

Lemma flushFile_absent f s :
  (∀ j d, bufDescTable s !! j = Some d → file d ≠ Some f) →
  flushFile (Some f) s = (inr tt, s).
Proof. intros Hno. unfold flushFile. by apply flushFile_from_absent. Qed.

(** ** allocBuf with no pinned frame *)

Lemma evict_not_exceeded h d s r s' :
  evict h d s = (r, s') → r ≠ inl BufferExceededException.
Proof.
  unfold evict. msimpl. intros H.
  destruct (dirty d); msimpl.
  - destruct (file d); msimpl; [|by injection H as <- <-].
    destruct (bufPool s !! h); msimpl; [|by injection H as <- <-].
    destruct (hashTable s !! _); msimpl; [|by injection H as <- <-].
    destruct (decide (h < length (bufDescTable s))); msimpl;
      by injection H as <- <-.
  - destruct (hashTable s !! _); msimpl; [|by injection H as <- <-].
    destruct (decide (h < length (bufDescTable s))); msimpl;
      by injection H as <- <-.
Qed.

Lemma allocBuf_loop_unpinned fuel : ∀ s r s',
  numBufs s ≠ 0 →
  Forall (λ d, (pinCnt d ≤ 0)%Z) (bufDescTable s) →
  allocBuf_loop fuel 0 s = (r, s') → r ≠ inl BufferExceededException.
Proof.
  induction fuel as [|fuel IH]; intros s r s' Hn Hall H; simpl in H;
    (case_decide as Hg; [unfold numBufs in *; lia|]);
    try (injection H as <- <-; done).
  msimpl. set (hand := N.to_nat _) in H.
  destruct (bufDescTable s !! hand) as [d|] eqn:Hh;
    [|injection H as <- <-; done].
  pose proof (proj1 (Forall_lookup _ _) Hall hand d Hh) as Hp.
  assert (Hlt : hand < length (bufDescTable s)) by (eapply lookup_lt_Some; eauto).
  destruct (valid d); simpl in H; [|injection H as <- <-; done].
  destruct (refbit d); msimpl.
  - destruct (decide (hand < length (bufDescTable s))); [|lia]. msimpl.
    eapply IH; [| |exact H]; unfold numBufs; msimpl.
    + by rewrite length_insert.
    + by apply Forall_insert.
  - destruct (0 <? pinCnt d)%Z eqn:Hpin; [lia|].
    by apply evict_not_exceeded in H.
Qed.

(** ** Valid frames and directory entries *)

Lemma directory_size_aux (ds : list BufDesc) :
  ∀ (ht : gmap (option File * PageId) FrameId) off,
  (∀ k i, ht !! k = Some i ↔
          ∃ j d, i = off + j ∧ ds !! j = Some d ∧ valid d = true ∧ key_of d = k) →
  size ht = valid_count ds.
Proof.
  induction ds as [|d ds IH]; intros ht off Hht; simpl.
  - apply map_size_empty_iff, map_empty. intros k.
    destruct (ht !! k) as [i|] eqn:E; [|done].
    apply Hht in E as (j & x & _ & Hj & _). done.
  - destruct (valid d) eqn:Hv.
    + assert (Hk : ht !! key_of d = Some off).
      { apply Hht. exists 0, d. rewrite Nat.add_0_r. done. }
      rewrite <- (IH (delete (key_of d) ht) (S off)).
      { rewrite map_size_delete_Some by eauto.
        assert (size ht ≠ 0); [|lia].
        intros Hz. apply map_size_empty_inv in Hz. by subst. }
      intros k i. rewrite lookup_delete. case_decide as Hkd.
      * subst k. split; [done|]. intros (j & x & -> & Hj & Hvx & Hkx).
        assert (ht !! key_of d = Some (off + S j)); [|simplify_eq; lia].
        apply Hht. exists (S j), x. done.
      * rewrite Hht. split.
        -- intros ([|j] & x & -> & Hj & Hvx & Hkx); simplify_eq/=.
           exists j, x. split_and!; try done; lia.
        -- intros (j & x & -> & Hj & Hvx & Hkx).
           exists (S j), x. split_and!; try done; lia.
    + apply (IH ht (S off)). intros k i. rewrite Hht. split.
      * intros ([|j] & x & -> & Hj & Hvx & Hkx); simplify_eq/=;
          [congruence|].
        exists j, x. split_and!; try done; lia.
      * intros (j & x & -> & Hj & Hvx & Hkx).
        exists (S j), x. split_and!; try done; lia.
Qed.

(** ** Properties of the constructor, the clock and allocBuf *)


(** X3: on a pool of [numBufs] frames (non-empty, fitting a uint32) with
    the hand in range, [k] advances move the hand to
    [(clockHand + k) mod numBufs] and change nothing else: the 32-bit
    wrap-around never shows, [numBufs] advances bring the hand back, and
    every frame is reached within [numBufs] advances. *)
Theorem advanceClock_cycle s :
  numBufs s ≠ 0 → (N.of_nat (numBufs s) < UINT32_MOD)%N →
  clockHand s < numBufs s →
  (∀ k, clockHand (advance_n k s) = (clockHand s + k) mod numBufs s ∧
        bufDescTable (advance_n k s) = bufDescTable s ∧
        bufPool (advance_n k s) = bufPool s ∧
        hashTable (advance_n k s) = hashTable s) ∧
  clockHand (advance_n (numBufs s) s) = clockHand s ∧
  (∀ i, i < numBufs s →
        ∃ k, k < numBufs s ∧ clockHand (advance_n k s) = i).
Proof.
  intros Hn Hsz Hh. split_and!.
  - intros k. by apply advance_n_spec.
  - destruct (advance_n_spec (numBufs s) s Hn Hsz Hh) as (-> & _).
    replace (clockHand s + numBufs s) with (clockHand s + 1 * numBufs s) by lia.
    rewrite Nat.Div0.mod_add. by apply Nat.mod_small.
  - intros i Hi.
    exists (if decide (clockHand s ≤ i) then i - clockHand s
            else numBufs s - clockHand s + i).
    case_decide; (split; [lia|]);
      match goal with |- clockHand (advance_n ?k s) = _ =>
        destruct (advance_n_spec k s Hn Hsz Hh) as (-> & _) end.
    + replace (clockHand s + (i - clockHand s)) with i by lia.
      by apply Nat.mod_small.
    + replace (clockHand s + (numBufs s - clockHand s + i))
        with (i + 1 * numBufs s) by lia.
      rewrite Nat.Div0.mod_add. by apply Nat.mod_small.
Qed.

(** X4: under the invariants allocBuf terminates, and either raises
    BufferExceeded (no other exception escapes it) or returns a frame in
    range on which the hand rests; that frame is empty (as Clear leaves it,
    with its own frame number) and no directory entry maps to it.  Both
    invariants hold afterwards. *)
Theorem allocBuf_returns_empty_frame s r s' :
  BufInv s → PinInv s → allocBuf s = (r, s') →
  BufInv s' ∧ PinInv s' ∧
  match r with
  | inl e => e = BufferExceededException
  | inr h =>
      h < numBufs s' ∧ clockHand s' = h ∧
      bufDescTable s' !! h =
        Some (mkBufDesc None INVALID_NUMBER h 0 false false false) ∧
      ∀ k, hashTable s' !! k ≠ Some h
  end.
Proof.
  intros Hinv Hpin H.
  destruct (allocBuf_spec s r s' Hinv H) as (Hinv' & _ & Hr).
  pose proof (allocBuf_PinInv s r s' Hinv Hpin H) as Hpin'.
  destruct (allocBuf_effect s r s' Hinv H) as (_ & _ & Hr').
  split_and!; try done. destruct r as [e|h].
  - by destruct Hr as (_ & _ & _ & ->).
  - destruct Hr as (d & Hh & Hv). destruct Hr' as (Hhand & _).
    destruct (Hpin' h d Hh) as (Hn & _ & Hc).
    split_and!; try done.
    + eapply lookup_lt_Some; eauto.
    + rewrite Hh, (Hc Hv). unfold Clear. by rewrite Hn.
    + intros k Hk. destruct Hinv' as (_ & _ & Hd & _).
      apply Hd in Hk as (x & Hx & Hvx & _). congruence.
Qed.

(** X5: what allocBuf changes.  The page pool is never touched.  When it
    raises, the directory and the files are as before and the descriptors
    differ at most by cleared reference bits.  When it returns frame [h]:
    every other descriptor differs at most by a cleared reference bit; if
    frame [h] was empty it is returned as it was and nothing is written; if
    it held a page, that page was unpinned, the frame is now Cleared, exactly
    its directory entry is removed, and its page was written to its file
    once if it was dirty and not at all otherwise. *)
Theorem allocBuf_changes_only_victim s r s' :
  BufInv s → allocBuf s = (r, s') →
  bufPool s' = bufPool s ∧
  length (bufDescTable s') = length (bufDescTable s) ∧
  match r with
  | inl _ =>
      hashTable s' = hashTable s ∧ disk s' = disk s ∧ trace s' = trace s ∧
      (∀ j dj, bufDescTable s !! j = Some dj →
               ∃ dj', bufDescTable s' !! j = Some dj' ∧ aged dj dj')
  | inr h =>
      ∃ d, bufDescTable s !! h = Some d ∧
        (∀ j dj, j ≠ h → bufDescTable s !! j = Some dj →
                 ∃ dj', bufDescTable s' !! j = Some dj' ∧ aged dj dj') ∧
        if valid d then
          (pinCnt d ≤ 0)%Z ∧
          bufDescTable s' !! h = Some (Clear d) ∧
          hashTable s' = delete (key_of d) (hashTable s) ∧
          ∃ f pg, file d = Some f ∧ bufPool s !! h = Some pg ∧
            trace s' = trace s ++
              map (EvWritePage f) (if dirty d then [pg] else []) ∧
            disk s' = write_all f (if dirty d then [pg] else []) (disk s)
        else
          bufDescTable s' !! h = Some d ∧ hashTable s' = hashTable s ∧
          trace s' = trace s ∧ disk s' = disk s
  end.
Proof.
  intros Hinv H.
  destruct (allocBuf_effect s r s' Hinv H) as (Hpl & Hlen & Hr).
  split_and!; try done. destruct r as [e|h]; [done|].
  by destruct Hr as (_ & Hr).
Qed.

(** X6: allocBuf never evicts a pinned page.  A valid frame with
    pinCnt > 0 is never the frame returned; after the call, whatever the
    outcome, it holds the same page with the same pin count and dirty bit
    (only its reference bit may have been cleared), its directory entry
    still maps to it and its pool slot is unchanged. *)
Theorem allocBuf_never_evicts_pinned s r s' i d :
  BufInv s → allocBuf s = (r, s') →
  bufDescTable s !! i = Some d → valid d = true → (0 < pinCnt d)%Z →
  r ≠ inr i ∧
  bufPool s' !! i = bufPool s !! i ∧
  hashTable s' !! (file d, pageNo d) = Some i ∧
  ∃ d', bufDescTable s' !! i = Some d' ∧
        (d' = d ∨ d' = set_refbit false d).
Proof.
  intros Hinv H Hi Hv Hp.
  destruct (allocBuf_keeps_pinned s r s' i d Hinv H Hi Hv Hp)
    as (Hne & d' & Hi' & Hag & Hk).
  destruct (allocBuf_effect s r s' Hinv H) as (Hpl & _).
  split_and!.
  - intros ->. by apply (Hne i).
  - by rewrite Hpl.
  - exact Hk.
  - exists d'. done.
Qed.

(** X7: allocBuf returns a frame whenever some frame is invalid, and also
    whenever the pool is not empty and no frame is pinned. *)
Theorem allocBuf_succeeds s :
  BufInv s →
  (∃ i d, bufDescTable s !! i = Some d ∧ valid d = false) ∨
  (numBufs s ≠ 0 ∧ Forall (λ d, (pinCnt d ≤ 0)%Z) (bufDescTable s)) →
  ∃ h s', allocBuf s = (inr h, s').
Proof.
  intros Hinv [(i & d & Hi & Hv)|[Hn Hall]].
  - by eapply allocBuf_finds_invalid_frame.
  - destruct (allocBuf s) as [[e|h] s'] eqn:H; [|eauto].
    destruct (allocBuf_spec s _ s' Hinv H) as (_ & _ & _ & _ & _ & ->).
    unfold allocBuf in H.
    by destruct (allocBuf_loop_unpinned _ s _ s' Hn Hall H).
Qed.

(** X8: with every frame valid and pinned (an empty pool included)
    allocBuf raises BufferExceeded; the directory, the pool, the files and
    every pin count are as before, and at most reference bits were
    cleared. *)
Theorem allocBuf_raises_when_all_pinned s :
  BufInv s →
  Forall (λ d, valid d = true ∧ (0 < pinCnt d)%Z) (bufDescTable s) →
  ∃ s', allocBuf s = (inl BufferExceededException, s') ∧
        hashTable s' = hashTable s ∧ bufPool s' = bufPool s ∧
        disk s' = disk s ∧ trace s' = trace s ∧
        (∀ j dj, bufDescTable s !! j = Some dj →
                 ∃ dj', bufDescTable s' !! j = Some dj' ∧
                        (dj' = dj ∨ dj' = set_refbit false dj)).
Proof.
  intros Hinv Hall. pose proof (allocBuf_all_pinned s Hinv Hall) as Hr.
  destruct (allocBuf s) as [r s'] eqn:H. simpl in Hr. subst r.
  exists s'. split; [done|].
  destruct (allocBuf_effect s _ s' Hinv H) as (Hpl & _ & Hht & Hdk & Htr & Hds).
  done.
Qed.

(** ** Invariants and residency across the operations *)

(** X9: every operation, on every outcome, preserves the invariant on the
    descriptors: each frame carries its own frame number, no pin count is
    negative, an invalid frame is exactly as Clear leaves it; so a frame
    with pinCnt > 0 is valid. *)
Theorem operations_preserve_descriptor_invariant op s :
  BufInv s → PinInv s →
  PinInv (run op s).2 ∧
  (∀ i d, bufDescTable (run op s).2 !! i = Some d →
          frameNo d = i ∧ (0 ≤ pinCnt d)%Z ∧
          ((0 < pinCnt d)%Z → valid d = true) ∧
          (valid d = false →
           d = mkBufDesc None INVALID_NUMBER i 0 false false false)).
Proof.
  intros Hinv Hpin. pose proof (run_preserves_PinInv op s Hinv Hpin) as Hpin'.
  split; [done|]. intros i d Hi. destruct (Hpin' i d Hi) as (Hn & Hp & Hc).
  split_and!; try done.
  - intros Hpos. destruct (valid d) eqn:Hv; [done|].
    rewrite (Hc eq_refl) in Hpos. simpl in Hpos. lia.
  - intros Hv. rewrite (Hc Hv). unfold Clear. by rewrite Hn.
Qed.

(** X10: a pinned page stays where it is.  If frame [i] is valid with
    pinCnt > 0, then after any operation other than disposePage of that very
    page, whatever its outcome, the directory still maps the page to frame
    [i], the frame still holds that page, and its pool slot is unchanged:
    the pointer a caller got from readPage or allocPage stays good. *)
Theorem pinned_page_stays_resident op s i d :
  BufInv s → bufDescTable s !! i = Some d →
  valid d = true → (0 < pinCnt d)%Z →
  (∀ f p, op = OpDisposePage f p → (file d, pageNo d) ≠ (Some f, p)) →
  bufPool (run op s).2 !! i = bufPool s !! i ∧
  hashTable (run op s).2 !! (file d, pageNo d) = Some i ∧
  ∃ d', bufDescTable (run op s).2 !! i = Some d' ∧
        valid d' = true ∧ file d' = file d ∧ pageNo d' = pageNo d.
Proof.
  intros Hinv Hi Hv Hp Hnd.
  destruct (pinned_page_kept op s i d Hinv Hi Hv Hp Hnd)
    as (Hpl & d' & Hi' & Hv' & Hk').
  pose proof (run_preserves_BufInv op s Hinv) as (_ & _ & Hd & _).
  split_and!; try done.
  - apply Hd. exists d'. done.
  - exists d'. unfold key_of in Hk'. injection Hk' as ? ?. done.
Qed.

(** ** How the operations compose *)

(** X11: a successful readPage makes the page resident: the directory maps
    it to the returned frame, which is in range, valid for that page, has
    its reference bit set and pinCnt >= 1.  A second readPage of the same
    page then hits (the pin count being below INT_MAX): it returns the same
    frame and makes no call on the file (one copy of a page in the pool). *)
Theorem readPage_makes_page_resident f p s fr s1 :
  BufInv s → PinInv s → readPage f p s = (inr fr, s1) →
  hashTable s1 !! (Some f, p) = Some fr ∧
  (∃ d, bufDescTable s1 !! fr = Some d ∧ valid d = true ∧
        file d = Some f ∧ pageNo d = p ∧ refbit d = true ∧
        (1 ≤ pinCnt d)%Z) ∧
  (∀ d, bufDescTable s1 !! fr = Some d → (pinCnt d < INT_MAX)%Z →
        ∃ s2, readPage f p s1 = (inr fr, s2) ∧
              disk s2 = disk s1 ∧ trace s2 = trace s1 ∧
              bufPool s2 = bufPool s1 ∧ hashTable s2 = hashTable s1).
Proof.
  intros Hinv Hpin H.
  assert (Hinv1 : BufInv s1) by (eapply readPage_inv; eauto).
  assert (Hres : ∃ d, bufDescTable s1 !! fr = Some d ∧ valid d = true ∧
            file d = Some f ∧ pageNo d = p ∧ refbit d = true ∧
            (1 ≤ pinCnt d)%Z).
  { pose proof (readPage_cases f p s Hinv) as Hc.
    destruct (hashTable s !! (Some f, p)) as [i|].
    - destruct Hc as (d & Hi & Hv & Hk & Heq). rewrite Heq in H.
      case_decide; [|done]. injection H as <- <-. simpl.
      rewrite list_lookup_insert_eq by (eapply lookup_lt_Some; eauto).
      eexists. split; [done|]. simpl.
      unfold key_of in Hk. injection Hk as ? ?.
      destruct (Hpin i d Hi) as (_ & ? & _). split_and!; try done. lia.
    - destruct (allocBuf s) as [[e|fr'] s0] eqn:Ha.
      { rewrite Hc in H. done. }
      destruct (file_readPage f p (disk s0)) as [pg|].
      + destruct Hc as (d0 & Hfr & _ & _ & Heq). rewrite Heq in H.
        injection H as <- <-. simpl.
        rewrite list_lookup_insert_eq by (eapply lookup_lt_Some; eauto).
        eexists. split; [done|]. done.
      + rewrite Hc in H. done. }
  destruct Hres as (d & Hfr & Hv & Hf & Hpn & Hr & Hp).
  assert (Hk : hashTable s1 !! (Some f, p) = Some fr).
  { destruct Hinv1 as (_ & _ & Hd & _). apply Hd. exists d.
    unfold key_of. rewrite Hf, Hpn. done. }
  split_and!; [done|by exists d|].
  intros d2 Hd2 Hmax.
  pose proof (readPage_cases f p s1 Hinv1) as Hc. rewrite Hk in Hc.
  destruct Hc as (d1 & Hi1 & _ & _ & Heq).
  assert (d1 = d2) by congruence. subst d1.
  rewrite decide_True in Heq by done.
  eexists. split; [exact Heq|]. done.
Qed.

(** X12: readPage followed by unPinPage(dirty = false) of the same page
    returns normally and undoes the pin.  After a hit the manager is as
    before the readPage except that the reference bit of the frame is set;
    after a miss the page stays resident with pinCnt = 0. *)
Theorem readPage_then_unPinPage f p s fr s1 :
  BufInv s → PinInv s → readPage f p s = (inr fr, s1) →
  (∀ d, hashTable s !! (Some f, p) = Some fr →
        bufDescTable s !! fr = Some d →
        unPinPage f p false s1 =
          (inr tt, with_descs (<[fr:=set_refbit true d]> (bufDescTable s)) s)) ∧
  (hashTable s !! (Some f, p) = None →
   ∃ d1 s2, unPinPage f p false s1 = (inr tt, s2) ∧
            bufDescTable s2 !! fr = Some d1 ∧
            valid d1 = true ∧ file d1 = Some f ∧ pageNo d1 = p ∧
            pinCnt d1 = 0%Z ∧ dirty d1 = false ∧
            hashTable s2 = hashTable s1 ∧ bufPool s2 = bufPool s1 ∧
            disk s2 = disk s1 ∧ trace s2 = trace s1).
Proof.
  intros Hinv Hpin H.
  assert (Hinv1 : BufInv s1) by (eapply readPage_inv; eauto).
  pose proof (readPage_cases f p s Hinv) as Hc.
  pose proof (unPinPage_cases f p false s1 Hinv1) as Hu.
  split.
  - intros d Hk Hi. rewrite Hk in Hc.
    destruct Hc as (d' & Hi' & Hv & _ & Heq).
    assert (d' = d) by congruence. subst d'.
    rewrite Heq in H. case_decide; [|done].
    injection H as <-. simpl in Hu. rewrite Hk in Hu.
    destruct Hu as (d1 & Hi1 & _ & _ & Hu).
    rewrite list_lookup_insert_eq in Hi1 by (eapply lookup_lt_Some; eauto).
    injection Hi1 as <-. cbn [set_pinCnt pinCnt] in Hu.
    destruct (Hpin fr d Hi) as (_ & Hp & _).
    destruct (pinCnt d + 1 <=? 0)%Z eqn:Hle; [lia|].
    rewrite Hu. unfold with_descs. cbn [bufDescTable bufPool hashTable
      clockHand disk trace]. rewrite list_insert_insert_eq.
    replace (pinCnt d + 1 - 1)%Z with (pinCnt d) by lia.
    by destruct d.
  - intros Hk. rewrite Hk in Hc.
    destruct (allocBuf s) as [[e|fr'] s0] eqn:Ha.
    { rewrite Hc in H. done. }
    destruct (file_readPage f p (disk s0)) as [pg|]; [|rewrite Hc in H; done].
    destruct Hc as (d0 & Hfr & _ & _ & Heq). rewrite Heq in H.
    injection H as <- <-. simpl in Hu. rewrite lookup_insert_eq in Hu.
    destruct Hu as (d1 & Hi1 & _ & _ & Hu).
    rewrite list_lookup_insert_eq in Hi1 by (eapply lookup_lt_Some; eauto).
    injection Hi1 as <-. simpl in Hu.
    eexists _, _. split; [exact Hu|]. simpl.
    rewrite list_lookup_insert_eq
      by (rewrite length_insert; eapply lookup_lt_Some; eauto).
    done.
Qed.

(** X13: readPage of a page that is not resident, with every frame valid
    and pinned, raises BufferExceeded without calling the file; the
    directory, the pool and the pin counts are as before (reference bits
    may have been cleared by the sweep). *)
Theorem readPage_raises_when_all_pinned f p s :
  BufInv s → hashTable s !! (Some f, p) = None →
  Forall (λ d, valid d = true ∧ (0 < pinCnt d)%Z) (bufDescTable s) →
  ∃ s', readPage f p s = (inl BufferExceededException, s') ∧
        hashTable s' = hashTable s ∧ bufPool s' = bufPool s ∧
        disk s' = disk s ∧ trace s' = trace s ∧
        (∀ j dj, bufDescTable s !! j = Some dj →
                 ∃ dj', bufDescTable s' !! j = Some dj' ∧
                        (dj' = dj ∨ dj' = set_refbit false dj)).
Proof.
  intros Hinv Hk Hall. pose proof (allocBuf_all_pinned s Hinv Hall) as Hr.
  pose proof (readPage_cases f p s Hinv) as Hc. rewrite Hk in Hc.
  destruct (allocBuf s) as [r s'] eqn:H. simpl in Hr. subst r.
  exists s'. split; [done|].
  destruct (allocBuf_effect s _ s' Hinv H) as (Hpl & _ & Hht & Hdk & Htr & Hds).
  done.
Qed.

(** X14: when allocPage returns, the page number it returns is that of the
    page the file allocated; that page is in the pool slot of the returned
    frame, the directory maps (file, that number) to the frame, and the
    descriptor is as Set leaves it: valid, pinCnt 1, clean, reference bit
    set.  The frame is the one allocBuf returned after the file call. *)
Theorem allocPage_installs_new_page f s p fr s' :
  BufInv s → allocPage f s = (inr (p, fr), s') →
  p = page_number (file_allocatePage f (disk s)).1 ∧
  bufPool s' !! fr = Some (file_allocatePage f (disk s)).1 ∧
  hashTable s' !! (Some f, p) = Some fr ∧
  (∃ d, bufDescTable s' !! fr = Some d ∧ file d = Some f ∧ pageNo d = p ∧
        valid d = true ∧ pinCnt d = 1%Z ∧ dirty d = false ∧ refbit d = true) ∧
  ∃ s1, allocBuf (with_disk (file_allocatePage f (disk s)).2
                            (EvAllocatePage f) s) = (inr fr, s1) ∧
        disk s' = disk s1 ∧ trace s' = trace s1 ∧ clockHand s' = fr.
Proof.
  intros Hinv H. pose proof (allocPage_cases f s Hinv) as Hc. cbv zeta in Hc.
  set (s0 := with_disk _ _ s) in *.
  assert (Hinv0 : BufInv s0) by exact Hinv.
  destruct (allocBuf s0) as [[e|fr'] s1] eqn:Ha.
  { rewrite Hc in H. done. }
  destruct (allocBuf_spec s0 _ s1 Hinv0 Ha) as ((Hl & _) & _).
  destruct (allocBuf_effect s0 _ s1 Hinv0 Ha) as (_ & _ & Hhand & _).
  destruct (hashTable s1 !! _) as [j|] eqn:Hk.
  { rewrite Hc in H. done. }
  destruct Hc as (d0 & Hfr & _ & Heq). rewrite Heq in H.
  injection H as <- <- <-. simpl.
  assert (Hlt : fr' < length (bufDescTable s1)) by (eapply lookup_lt_Some; eauto).
  split_and!; try done.
  - rewrite list_lookup_insert_eq by lia. done.
  - by rewrite lookup_insert_eq.
  - rewrite list_lookup_insert_eq by done. eexists. split; [done|]. done.
  - exists s1. done.
Qed.

(** X15: flushFile of a file that owns no frame (an empty pool included)
    returns normally and changes nothing; hence a flushFile that returned
    normally can be repeated at once without any effect: no second
    write-back is issued. *)
Theorem flushFile_idempotent f s :
  ((∀ j d, bufDescTable s !! j = Some d → file d ≠ Some f) →
   flushFile (Some f) s = (inr tt, s)) ∧
  (∀ s1, BufInv s → flushFile (Some f) s = (inr tt, s1) →
         flushFile (Some f) s1 = (inr tt, s1)).
Proof.
  split; [apply flushFile_absent|].
  intros s1 Hinv H. apply flushFile_absent.
  destruct (flushFile_outcome f s _ s1 Hinv H)
    as (m & _ & _ & _ & _ & Hlen & Hds & _ & _ & _ & ->).
  intros j d' Hj'.
  destruct (lookup_lt_is_Some_2 (bufDescTable s) j) as [d Hj].
  { rewrite <- Hlen. eapply lookup_lt_Some; eauto. }
  rewrite (Hds j d Hj) in Hj'. injection Hj' as <-.
  apply lookup_lt_Some in Hj. unfold numBufs. case_decide; [|lia].
  unfold flush_desc. case_decide; done.
Qed.

(** X16: unPinPage(dirty = true) is seen by the next flushFile: if it
    returns normally and flushFile of the file then returns normally, the
    page in the frame's pool slot has been passed to file.writePage, the
    frame is empty and the page is no longer in the directory. *)
Theorem unPinPage_dirty_then_flushFile f p s i pg s1 s2 :
  BufInv s →
  hashTable s !! (Some f, p) = Some i → bufPool s !! i = Some pg →
  unPinPage f p true s = (inr tt, s1) →
  flushFile (Some f) s1 = (inr tt, s2) →
  EvWritePage f pg ∈ trace s2 ∧
  hashTable s2 !! (Some f, p) = None ∧
  ∃ d, bufDescTable s2 !! i = Some d ∧ valid d = false.
Proof.
  intros Hinv Hk Hpg Hu Hfl.
  assert (Hinv1 : BufInv s1) by (eapply unPinPage_inv; eauto).
  pose proof (unPinPage_cases f p true s Hinv) as Hc. rewrite Hk in Hc.
  destruct Hc as (d & Hi & Hv & Hkey & Hc).
  assert (Hlt : i < length (bufDescTable s)) by (eapply lookup_lt_Some; eauto).
  destruct (pinCnt d <=? 0)%Z; rewrite Hc in Hu; [done|].
  injection Hu as <-.
  unfold key_of in Hkey. injection Hkey as Hf Hp.
  set (d1 := set_pinCnt (pinCnt d - 1) (set_dirty true d)) in *.
  assert (Hi1 : bufDescTable
                  (with_descs (<[i:=d1]> (bufDescTable s)) s) !! i = Some d1).
  { simpl. by rewrite list_lookup_insert_eq. }
  destruct (flushFile_outcome f _ _ s2 Hinv1 Hfl)
    as (m & _ & Hinv2 & _ & _ & Hlen & Hds & _ & Htr & _ & ->).
  destruct (flushed_directory f _ s2 _ Hinv1 Hinv2 Hlen Hds) as [_ Hgone].
  pose proof Hinv1 as (Hl1 & _).
  unfold numBufs in *.
  rewrite !take_ge in Htr by lia.
  split_and!.
  - rewrite Htr. apply elem_of_app. right. apply list_elem_of_fmap.
    exists pg. split; [done|].
    eapply (flush_writes_elem f _ _ i d1); eauto.
  - rewrite <- Hp. apply (Hgone i d1); [|done|done].
    simpl. by rewrite length_insert.
  - rewrite (Hds i d1 Hi1). eexists. split; [done|].
    rewrite decide_True by (simpl; rewrite length_insert; lia).
    unfold flush_desc. rewrite decide_True by done. done.
Qed.

(** X17: disposePage returns normally and leaves the page out of the
    directory, whether it was resident, pinned or neither; an unPinPage of
    that page that comes later is ignored: it returns normally and changes
    nothing. *)
Theorem disposePage_then_unPinPage f p b s :
  BufInv s →
  (disposePage f p s).1 = inr tt ∧
  hashTable (disposePage f p s).2 !! (Some f, p) = None ∧
  unPinPage f p b (disposePage f p s).2 = (inr tt, (disposePage f p s).2).
Proof.
  intros Hinv.
  assert (Hinv1 : BufInv (disposePage f p s).2).
  { destruct (disposePage f p s) eqn:H. eapply disposePage_inv; eauto. }
  assert (H : (disposePage f p s).1 = inr tt ∧
              hashTable (disposePage f p s).2 !! (Some f, p) = None).
  { pose proof (disposePage_cases f p s Hinv) as Hc.
    destruct (hashTable s !! (Some f, p)) as [i|] eqn:Hk.
    - destruct Hc as (d & _ & _ & _ & ->). simpl.
      by rewrite lookup_delete_eq.
    - rewrite Hc. done. }
  destruct H as [H1 H2]. split_and!; try done.
  pose proof (unPinPage_cases f p b _ Hinv1) as Hu. by rewrite H2 in Hu.
Qed.

(** X18: in every state that satisfies the invariant the number of valid
    frames is the number of directory entries. *)
Theorem valid_frames_match_directory s :
  BufInv s → size (hashTable s) = valid_count (bufDescTable s).
Proof.
  intros (_ & _ & Hd & _). apply (directory_size_aux _ _ 0).
  intros k i. rewrite Hd. split.
  - intros (d & ? & ? & ?). exists i, d. done.
  - intros (j & d & -> & ? & ? & ?). exists d. done.
Qed.

(** X2: the destructor writes back the page of every frame that is valid
    and dirty, each once, to the file that owns it and in frame order; it
    does so whether or not the frame is pinned, raises nothing, and leaves
    the descriptors (dirty bits included) as they were. *)
Theorem destructor_writes_back_dirty_frames s :
  BufInv s →
  ∃ s', BufMgr_destroy s = (inr tt, s') ∧
    bufDescTable s' = bufDescTable s ∧ bufPool s' = bufPool s ∧
    hashTable s' = hashTable s ∧
    trace s' = trace s ++
      map write_event (write_backs (bufDescTable s) (bufPool s)) ∧
    disk s' = write_each (write_backs (bufDescTable s) (bufPool s)) (disk s) ∧
    (∀ i d pg f, bufDescTable s !! i = Some d → bufPool s !! i = Some pg →
                 valid d = true → dirty d = true → file d = Some f →
                 EvWritePage f pg ∈ trace s').
Proof.
  intros Hinv. unfold BufMgr_destroy.
  destruct (writeBack_from_spec (numBufs s) 0 s Hinv eq_refl)
    as (s' & Heq & Hds & Hpl & Hht & _ & Htr & Hdk).
  rewrite !drop_0 in *. exists s'. split_and!; try done.
  intros i d pg f Hi Hpg Hv Hdirty Hf. rewrite Htr.
  apply elem_of_app. right. apply list_elem_of_fmap.
  exists (f, pg). split; [done|]. eapply write_backs_elem; eauto.
Qed.

End Coverage.

(** * The manager on the concrete files *)

Import SimpleFile.

Ltac by_compute := vm_compute; reflexivity.

(** C1 (the code departs from it): allocBuf should raise BufferExceeded
    only when every frame is pinned.  With two frames, frame 0 pinned with
    its reference bit clear and frame 1 unpinned with its reference bit
    set, and the hand on frame 1, allocBuf counts the pinned frame 0 twice
    (before and after it clears the reference bit of frame 1) and raises
    BufferExceeded, although frame 1 is valid with pinCnt = 0.  The state is
    reached from a fresh manager by public operations, and readPage of a new
    page fails in it.  (What does hold: [allocBuf_finds_invalid_frame],
    [allocBuf_all_pinned].) *)
Theorem allocBuf_raises_with_unpinned_frame :
  pinned_then_referenced =
    mkState
      [mkBufDesc (Some 7%N) 1 0 1 false true false;
       mkBufDesc (Some 7%N) 3 1 0 false true true]
      [(1%N, 10%N); (3%N, 30%N)]
      (<[(Some 7%N, 3%N):=1]> (<[(Some 7%N, 1%N):=0]> ∅))
      1 disk0 [EvReadPage 7 1; EvReadPage 7 2; EvReadPage 7 3] ∧
  BufInv pinned_then_referenced ∧
  allocBuf pinned_then_referenced =
    (inl BufferExceededException,
     mkState
       [mkBufDesc (Some 7%N) 1 0 1 false true false;
        mkBufDesc (Some 7%N) 3 1 0 false true false]
       [(1%N, 10%N); (3%N, 30%N)]
       (<[(Some 7%N, 3%N):=1]> (<[(Some 7%N, 1%N):=0]> ∅))
       0 disk0 [EvReadPage 7 1; EvReadPage 7 2; EvReadPage 7 3]) ∧
  (readPage 7%N 4%N pinned_then_referenced).1 = inl BufferExceededException.
Proof.
  split_and!; [by_compute| |by_compute|by_compute].
  apply reached_BufInv. done.
Qed.

(** The invariant theorem at readPage of a third page into a full pool. *)
Lemma operations_preserve_directory_invariant_witness :
  BufInv (run (OpReadPage 7 3) both_pinned).2 ∧
  directory_agrees (run (OpReadPage 7 3) both_pinned).2 ∧
  frames_distinct (run (OpReadPage 7 3) both_pinned).2.
Proof.
  apply operations_preserve_directory_invariant.
  apply reached_BufInv. done.
Defined.

(** readPage on a hit (page 1 resident in frame 0, pinned once, reference
    bit clear: afterwards the bit is set and the pin count is 2, with no
    file call) and on a miss (fresh manager). *)
Lemma readPage_spec_witness :
  (∃ s' d', readPage 7%N 1%N pinned_then_referenced = (inr 0, s') ∧
            bufDescTable s' !! 0 = Some d' ∧
            refbit d' = true ∧ pinCnt d' = 2%Z ∧ dirty d' = false ∧
            bufPool s' = bufPool pinned_then_referenced ∧
            hashTable s' = hashTable pinned_then_referenced ∧
            disk s' = disk pinned_then_referenced ∧
            trace s' = trace pinned_then_referenced) ∧
  (∃ s', readPage 7%N 1%N (fresh 2) = (inr 0, s') ∧
         bufPool s' !! 0 = Some (1%N, 10%N) ∧
         hashTable s' !! (Some 7%N, 1%N) = Some 0 ∧
         ∃ d', bufDescTable s' !! 0 = Some d' ∧ valid d' = true ∧
               pinCnt d' = 1%Z ∧ dirty d' = false ∧ refbit d' = true).
Proof.
  destruct (readPage_spec 7%N 1%N pinned_then_referenced) as [Hhit _].
  destruct (readPage_spec 7%N 1%N (fresh 2)) as [_ Hmiss].
  split.
  - destruct (Hhit 0 (mkBufDesc (Some 7%N) 1 0 1 false true false))
      as (s' & d' & Heq & Hd & Hr & Hp & _ & Hdi & _ & _ & _ & _
          & Hpl & Hht & _ & Hdk & Htr);
      [by_compute|by_compute|reflexivity|].
    exists s', d'. split_and!; assumption.
  - destruct (Hmiss 0 (allocBuf (fresh 2)).2 (1%N, 10%N))
      as (d0 & s' & _ & Heq & _ & Hpl & Hht & d' & Hd & _ & _ & Hv & Hp
          & Hdi & Hr);
      [|by_compute|by_compute|by_compute|].
    { apply BufInv_init. done. }
    exists s'. split_and!; try assumption. exists d'. split_and!; assumption.
Defined.

(** Page 9 is not on the disk: the file raises, frame 0 stays empty. *)
Lemma readPage_file_failure_leaves_frame_empty_witness :
  ∃ s', readPage 7%N 9%N (fresh 1) = (inl FileException, s') ∧
        (∃ d, bufDescTable s' !! 0 = Some d ∧ valid d = false) ∧
        hashTable s' !! (Some 7%N, 9%N) = None ∧
        (∀ k, hashTable s' !! k ≠ Some 0).
Proof.
  apply (readPage_file_failure_leaves_frame_empty 7%N 9%N (fresh 1) 0
           (allocBuf (fresh 1)).2);
    [|by_compute|by_compute|by_compute].
  apply BufInv_init. done.
Defined.

(** allocPage with both frames pinned. *)
Lemma allocPage_BufferExceeded_keeps_allocation_witness :
  allocPage 7%N both_pinned =
    (inl BufferExceededException, (allocPage 7%N both_pinned).2) ∧
  disk (allocPage 7%N both_pinned).2 =
    (file_allocatePage 7%N (disk both_pinned)).2 ∧
  trace (allocPage 7%N both_pinned).2 =
    trace both_pinned ++ [EvAllocatePage 7%N] ∧
  hashTable (allocPage 7%N both_pinned).2 = hashTable both_pinned.
Proof.
  apply (allocPage_BufferExceeded_keeps_allocation 7%N both_pinned
           (file_allocatePage 7%N (disk both_pinned)).1);
    [|by_compute|by_compute].
  apply reached_BufInv. done.
Defined.

(** C9, as the claim states it, fails: both frames are pinned, allocPage
    raises BufferExceeded, and page 5 of file 7, which was not allocated
    before the call, is allocated in the file after it. *)
Lemma allocPage_leaves_new_page_allocated :
  forallb (λ d, (0 <? pinCnt d)%Z) (bufDescTable both_pinned) = true ∧
  (allocPage 7%N both_pinned).1 = inl BufferExceededException ∧
  allocated 7 5 (disk both_pinned) = false ∧
  allocated 7 5 (disk (allocPage 7%N both_pinned).2) = true.
Proof. split_and!; by_compute. Qed.

(** flushFile stopped by a pinned frame after two frames were flushed, by
    an unpinned frame that holds the invalid page number and is valid, and,
    given a null pointer, by the empty frame 1, with nothing changed. *)
Lemma flushFile_error_spec_witness :
  (flushFile (Some 7%N) two_flushable_one_pinned).1 =
    inl (PagePinnedException "7" 3 2) ∧
  (valid (mkBufDesc (Some 7%N) 0 0 0 false true true) = true ∧
   (flushFile (Some 7%N) invalid_number_resident).1 =
     inl (BadBufferException 0 false true true)) ∧
  hashTable (flushFile (Some 7%N) two_flushable_one_pinned).2
    !! (Some 7%N, 1%N) = None ∧
  (valid (mkBufDesc None 0 1 0 false false false) = false ∧
   flushFile None one_resident_one_empty =
     (inl (BadBufferException 1 false false false), one_resident_one_empty)) ∧
  (∃ d, bufDescTable invalid_number_resident !! 0 = Some d ∧
        file d = Some 7%N ∧ pageNo d = INVALID_NUMBER ∧ (pinCnt d ≤ 0)%Z ∧
        valid d = true ∧ (true = true ↔ is_Some (Some 7%N))).
Proof.
  assert (Hinv : BufInv two_flushable_one_pinned)
    by (apply reached_BufInv; done).
  assert (Hpin : PinInv two_flushable_one_pinned)
    by (apply reached_PinInv; [apply BufInv_init; done|apply PinInv_init]).
  assert (Hinv0 : BufInv invalid_number_resident)
    by (apply reached_BufInv; done).
  assert (Hpin0 : PinInv invalid_number_resident)
    by (apply reached_PinInv; [apply BufInv_init; done|apply PinInv_init]).
  assert (Hinv1 : BufInv one_resident_one_empty)
    by (apply reached_BufInv; done).
  assert (Hpin1 : PinInv one_resident_one_empty)
    by (apply reached_PinInv; [apply BufInv_init; done|apply PinInv_init]).
  destruct (flushFile_error_spec two_flushable_one_pinned Hinv Hpin)
    as (Hfw & Hbw & _ & _).
  destruct (flushFile_error_spec invalid_number_resident Hinv0 Hpin0)
    as (Hfw0 & _ & _ & Honly).
  destruct (flushFile_error_spec one_resident_one_empty Hinv1 Hpin1)
    as (_ & _ & Hnull & _).
  destruct (Hfw0 7%N 0 (mkBufDesc (Some 7%N) 0 0 0 false true true))
    as [_ Hbad]; [by_compute|reflexivity|intros j dj Hlt; lia|].
  destruct Hbad as [Hv0 Hr0]; [reflexivity|reflexivity|].
  destruct (Hnull 1 (mkBufDesc None 0 1 0 false false false))
    as [Hv1 Hr1]; [by_compute|reflexivity| |].
  { intros [|j] dj Hlt Hj; [|lia]. vm_compute in Hj.
    injection Hj as <-. discriminate. }
  split; [|split; [exact (conj Hv0 Hr0)|split; [|split; [exact (conj Hv1 Hr1)|]]]].
  - apply (Hfw 7%N 2 (mkBufDesc (Some 7%N) 3 2 1 false true true));
      [by_compute|reflexivity| |reflexivity].
    intros [|[|j]] dj Hlt Hj; [| |lia]; vm_compute in Hj;
      injection Hj as <-; intros _; split; done.
  - destruct (Hbw 7%N (PagePinnedException "7" 3 2)
                (flushFile (Some 7%N) two_flushable_one_pinned).2)
      as (i & d & _ & _ & _ & He & _ & _ & Hgone & _); [by_compute|].
    assert (Hi : i = 2) by (destruct He as [[_ He]|(_ & _ & He)]; congruence).
    subst i.
    apply (Hgone 0 (mkBufDesc (Some 7%N) 1 0 0 false true true));
      [lia|by_compute|reflexivity].
  - apply (Honly (Some 7%N) 0 false true true
             (flushFile (Some 7%N) invalid_number_resident).2).
    by_compute.
Defined.

(** C4, as the claim states it, fails: BadBuffer is also raised for a frame
    with valid = false.  Page 1 of file 7 has been read into frame 0 and
    unpinned; frame 1 is empty: it has no owner, the invalid page number
    and valid = false.  flushFile with a null pointer compares the pointer
    with the owner of each frame, skips frame 0, matches frame 1 and raises
    BadBuffer there, reporting valid = false; the state is unchanged. *)
Lemma flushFile_null_pointer_raises_on_empty_frame :
  (∃ d, bufDescTable one_resident_one_empty !! 1 = Some d ∧
        file d = None ∧ pageNo d = INVALID_NUMBER ∧ (pinCnt d ≤ 0)%Z ∧
        valid d = false) ∧
  flushFile None one_resident_one_empty =
    (inl (BadBufferException 1 false false false), one_resident_one_empty).
Proof.
  split; [|by_compute].
  exists (mkBufDesc None 0 1 0 false false false).
  split_and!; [by_compute|reflexivity|reflexivity|done|reflexivity].
Qed.

(** flushFile of a file whose only resident page is unpinned. *)
Lemma flushFile_return_spec_witness :
  (∀ i d', bufDescTable (flushFile (Some 7%N) one_unpinned).2 !! i = Some d' →
           file d' ≠ Some 7%N) ∧
  trace (flushFile (Some 7%N) one_unpinned).2 =
    trace one_unpinned ++
    map (EvWritePage 7%N)
      (flush_writes 7%N (bufDescTable one_unpinned) (bufPool one_unpinned)).
Proof.
  destruct (flushFile_return_spec 7%N one_unpinned
              (flushFile (Some 7%N) one_unpinned).2)
    as (Hnone & _ & _ & _ & _ & Htr & _); [|by_compute|done].
  apply reached_BufInv. done.
Defined.

(** unPinPage on an absent page, on an unpinned page and on a pinned one. *)
Lemma unPinPage_spec_witness :
  unPinPage 7%N 1%N false (fresh 1) = (inr tt, fresh 1) ∧
  (unPinPage 7%N 1%N false one_unpinned).1 =
    inl (PageNotPinnedException "7" 1 0) ∧
  ∃ d', unPinPage 7%N 1%N false both_pinned =
          (inr tt, with_descs (<[0:=d']> (bufDescTable both_pinned)) both_pinned) ∧
        pinCnt d' = 0%Z ∧ refbit d' = true.
Proof.
  destruct (unPinPage_spec 7%N 1%N false (fresh 1)) as (Hmiss & _ & _).
  destruct (unPinPage_spec 7%N 1%N false one_unpinned) as (_ & Hzero & _).
  destruct (unPinPage_spec 7%N 1%N false both_pinned) as (_ & _ & Hpin).
  split_and!.
  - apply Hmiss. by_compute.
  - apply (Hzero 0 (mkBufDesc (Some 7%N) 1 0 0 false true true));
      [by_compute|by_compute|reflexivity].
  - destruct (Hpin 0 (mkBufDesc (Some 7%N) 1 0 1 false true true))
      as (d' & Heq & Hp & Hr & _); [by_compute|by_compute|reflexivity|].
    exists d'. done.
Defined.

(** unPinPage(dirty = true) on a clean page with pinCnt = 0. *)
Lemma unPinPage_not_pinned_sets_dirty_witness :
  ∃ d', bufDescTable (unPinPage 7%N 1%N true one_unpinned).2 !! 0 = Some d' ∧
        dirty d' = true.
Proof.
  apply (unPinPage_not_pinned_sets_dirty 7%N 1%N one_unpinned 0
           (mkBufDesc (Some 7%N) 1 0 0 false true true));
    [by_compute|by_compute|reflexivity].
Defined.

(** disposePage of a resident dirty page and of a page that is not
    resident. *)
Lemma disposePage_spec_witness :
  (disposePage 7%N 2%N two_flushable_one_pinned).1 = inr tt ∧
  trace (disposePage 7%N 2%N two_flushable_one_pinned).2 =
    trace two_flushable_one_pinned ++ [EvDeletePage 7%N 2%N] ∧
  (disposePage 7%N 2%N (fresh 1)).1 = inr tt ∧
  trace (disposePage 7%N 2%N (fresh 1)).2 = [EvDeletePage 7%N 2%N].
Proof.
  destruct (disposePage_spec 7%N 2%N two_flushable_one_pinned) as [Hres _].
  destruct (disposePage_spec 7%N 2%N (fresh 1)) as [_ Habs].
  rewrite (Hres 1 (mkBufDesc (Some 7%N) 2 1 0 true true true))
    by by_compute.
  rewrite Habs by by_compute.
  done.
Defined.

(** ** The further properties on examples *)


(** The destructor with a dirty unpinned page and a clean pinned one. *)
Lemma destructor_writes_back_dirty_frames_witness :
  ∃ s', BufMgr_destroy two_flushable_one_pinned = (inr tt, s') ∧
        trace s' = trace two_flushable_one_pinned ++ [EvWritePage 7%N (2%N, 20%N)].
Proof.
  destruct (destructor_writes_back_dirty_frames two_flushable_one_pinned)
    as (s' & Heq & _ & _ & _ & Htr & _); [by apply reached_BufInv|].
  exists s'. split; [done|]. rewrite Htr. by_compute.
Defined.

(** Three frames, the hand on the last one. *)
Lemma advanceClock_cycle_witness :
  clockHand (advance_n 3 (fresh 3)) = clockHand (fresh 3) ∧
  clockHand (advance_n 1 (fresh 3)) = 0.
Proof.
  destruct (advanceClock_cycle (fresh 3)) as (Hk & Hback & _);
    [done|done|vm_compute; lia|].
  split; [exact Hback|]. destruct (Hk 1) as (-> & _). by_compute.
Defined.

(** allocBuf evicting the only, unpinned, page. *)
Lemma allocBuf_returns_empty_frame_witness :
  (allocBuf one_unpinned).1 = inr 0 ∧
  bufDescTable (allocBuf one_unpinned).2 !! 0 =
    Some (mkBufDesc None 0%N 0 0 false false false).
Proof.
  destruct (allocBuf_returns_empty_frame one_unpinned (inr 0)
              (allocBuf one_unpinned).2) as (_ & _ & _ & _ & Hd & _);
    [by apply reached_BufInv
    |apply reached_PinInv; [by apply BufInv_init|apply PinInv_init]
    |by_compute|].
  split; [by_compute|exact Hd].
Defined.

Lemma allocBuf_changes_only_victim_witness :
  bufPool (allocBuf one_unpinned).2 = bufPool one_unpinned ∧
  length (bufDescTable (allocBuf one_unpinned).2) =
    length (bufDescTable one_unpinned).
Proof.
  destruct (allocBuf_changes_only_victim one_unpinned (allocBuf one_unpinned).1
              (allocBuf one_unpinned).2) as (H1 & H2 & _);
    [by apply reached_BufInv|by_compute|].
  split; [exact H1|exact H2].
Defined.

(** Frame 2 is pinned; allocBuf evicts frame 0. *)
Lemma allocBuf_never_evicts_pinned_witness :
  (allocBuf two_flushable_one_pinned).1 ≠ inr 2 ∧
  hashTable (allocBuf two_flushable_one_pinned).2 !! (Some 7%N, 3%N) = Some 2.
Proof.
  destruct (allocBuf_never_evicts_pinned two_flushable_one_pinned
              (allocBuf two_flushable_one_pinned).1
              (allocBuf two_flushable_one_pinned).2 2
              (mkBufDesc (Some 7%N) 3 2 1 false true true))
    as (H1 & _ & H3 & _);
    [by apply reached_BufInv|by_compute|by_compute|reflexivity|reflexivity|].
  split; [exact H1|exact H3].
Defined.

Lemma allocBuf_succeeds_witness :
  ∃ h s', allocBuf (fresh 2) = (inr h, s').
Proof.
  apply allocBuf_succeeds; [by apply BufInv_init|].
  left. exists 0, (mkBufDesc None 0%N 0 0 false false false).
  split; by_compute.
Defined.

Lemma allocBuf_raises_when_all_pinned_witness :
  ∃ s', allocBuf both_pinned = (inl BufferExceededException, s') ∧
        hashTable s' = hashTable both_pinned.
Proof.
  destruct (allocBuf_raises_when_all_pinned both_pinned)
    as (s' & H1 & H2 & _);
    [by apply reached_BufInv| |exists s'; split; [exact H1|exact H2]].
  vm_compute. repeat constructor.
Defined.

Lemma operations_preserve_descriptor_invariant_witness :
  PinInv (run (OpUnPinPage 7 1 false) both_pinned).2.
Proof.
  apply operations_preserve_descriptor_invariant.
  - by apply reached_BufInv.
  - apply reached_PinInv; [by apply BufInv_init|apply PinInv_init].
Defined.

(** Page 3 is pinned in frame 2 while page 4 is read into a full pool. *)
Lemma pinned_page_stays_resident_witness :
  hashTable (run (OpReadPage 7 4) two_flushable_one_pinned).2
    !! (Some 7%N, 3%N) = Some 2 ∧
  bufPool (run (OpReadPage 7 4) two_flushable_one_pinned).2 !! 2 =
    Some (3%N, 30%N).
Proof.
  destruct (pinned_page_stays_resident (OpReadPage 7 4)
              two_flushable_one_pinned 2
              (mkBufDesc (Some 7%N) 3 2 1 false true true))
    as (H1 & H2 & _);
    [by apply reached_BufInv|by_compute|reflexivity|reflexivity
    |by intros f p [=]|].
  split; [exact H2|]. etrans; [exact H1|by_compute].
Defined.

(** Page 1 read into a fresh pool, and read again. *)
Lemma readPage_makes_page_resident_witness :
  hashTable (readPage 7%N 1%N (fresh 2)).2 !! (Some 7%N, 1%N) = Some 0 ∧
  ∃ s2, readPage 7%N 1%N (readPage 7%N 1%N (fresh 2)).2 = (inr 0, s2) ∧
        trace s2 = trace (readPage 7%N 1%N (fresh 2)).2.
Proof.
  destruct (readPage_makes_page_resident 7%N 1%N (fresh 2) 0
              (readPage 7%N 1%N (fresh 2)).2) as (H1 & _ & H3);
    [by apply BufInv_init|apply PinInv_init|by_compute|].
  split; [exact H1|].
  destruct (H3 (mkBufDesc (Some 7%N) 1 0 1 false true true))
    as (s2 & Hr & _ & Ht & _); [by_compute|by_compute|].
  exists s2. split; [exact Hr|exact Ht].
Defined.

(** A hit on page 1 (pinned once, reference bit clear) and a miss on page 1
    in a fresh pool, each followed by unPinPage. *)
Lemma readPage_then_unPinPage_witness :
  unPinPage 7%N 1%N false (readPage 7%N 1%N pinned_then_referenced).2 =
    (inr tt,
     with_descs
       (<[0:=mkBufDesc (Some 7%N) 1 0 1 false true true]>
          (bufDescTable pinned_then_referenced))
       pinned_then_referenced) ∧
  ∃ d1 s2, unPinPage 7%N 1%N false (readPage 7%N 1%N (fresh 2)).2 =
             (inr tt, s2) ∧
           bufDescTable s2 !! 0 = Some d1 ∧ pinCnt d1 = 0%Z.
Proof.
  split.
  - destruct (readPage_then_unPinPage 7%N 1%N pinned_then_referenced 0
                (readPage 7%N 1%N pinned_then_referenced).2) as (Hhit & _);
      [by apply reached_BufInv
      |apply reached_PinInv; [by apply BufInv_init|apply PinInv_init]
      |by_compute|].
    apply (Hhit (mkBufDesc (Some 7%N) 1 0 1 false true false)); by_compute.
  - destruct (readPage_then_unPinPage 7%N 1%N (fresh 2) 0
                (readPage 7%N 1%N (fresh 2)).2) as (_ & Hmiss);
      [by apply BufInv_init|apply PinInv_init|by_compute|].
    destruct Hmiss as (d1 & s2 & Hu & Hd & _ & _ & _ & Hp & _); [by_compute|].
    exists d1, s2. split_and!; [exact Hu|exact Hd|exact Hp].
Defined.

(** Both frames pinned, page 3 requested. *)
Lemma readPage_raises_when_all_pinned_witness :
  ∃ s', readPage 7%N 3%N both_pinned = (inl BufferExceededException, s') ∧
        trace s' = trace both_pinned.
Proof.
  destruct (readPage_raises_when_all_pinned 7%N 3%N both_pinned)
    as (s' & H1 & _ & _ & _ & H5 & _);
    [by apply reached_BufInv|by_compute|
    |exists s'; split; [exact H1|exact H5]].
  vm_compute. repeat constructor.
Defined.

(** allocPage on a fresh pool: the file allocates page 5. *)
Lemma allocPage_installs_new_page_witness :
  (5%N : PageId) = page_number (file_allocatePage 7%N (disk (fresh 2))).1 ∧
  hashTable (allocPage 7%N (fresh 2)).2 !! (Some 7%N, 5%N) = Some 0 ∧
  bufPool (allocPage 7%N (fresh 2)).2 !! 0 = Some (5%N, 0%N).
Proof.
  destruct (allocPage_installs_new_page 7%N (fresh 2) 5%N 0
              (allocPage 7%N (fresh 2)).2) as (H1 & H2 & H3 & _);
    [by apply BufInv_init|by_compute|].
  split_and!; [exact H1|exact H3|].
  etrans; [exact H2|by_compute].
Defined.

(** flushFile on an empty pool, and twice on a pool with one unpinned
    page. *)
Lemma flushFile_idempotent_witness :
  flushFile (Some 7%N) (fresh 2) = (inr tt, fresh 2) ∧
  flushFile (Some 7%N) (flushFile (Some 7%N) one_unpinned).2 =
    (inr tt, (flushFile (Some 7%N) one_unpinned).2).
Proof.
  split.
  - apply (proj1 (flushFile_idempotent 7%N (fresh 2))).
    intros [|[|j]] d Hj; vm_compute in Hj; [| |discriminate];
      injection Hj as <-; discriminate.
  - apply (proj2 (flushFile_idempotent 7%N one_unpinned));
      [by apply reached_BufInv|by_compute].
Defined.

(** Page 1 read, unpinned as dirty, then the file flushed. *)
Lemma unPinPage_dirty_then_flushFile_witness :
  EvWritePage 7%N (1%N, 10%N) ∈
    trace (flushFile (Some 7%N) (unPinPage 7%N 1%N true one_pinned).2).2 ∧
  hashTable (flushFile (Some 7%N) (unPinPage 7%N 1%N true one_pinned).2).2
    !! (Some 7%N, 1%N) = None.
Proof.
  destruct (unPinPage_dirty_then_flushFile 7%N 1%N one_pinned 0 (1%N, 10%N)
              (unPinPage 7%N 1%N true one_pinned).2
              (flushFile (Some 7%N) (unPinPage 7%N 1%N true one_pinned).2).2)
    as (H1 & H2 & _);
    [by apply reached_BufInv|by_compute|by_compute|by_compute|by_compute|].
  split; [exact H1|exact H2].
Defined.

(** A pinned page disposed of, then unpinned. *)
Lemma disposePage_then_unPinPage_witness :
  (disposePage 7%N 1%N both_pinned).1 = inr tt ∧
  unPinPage 7%N 1%N false (disposePage 7%N 1%N both_pinned).2 =
    (inr tt, (disposePage 7%N 1%N both_pinned).2).
Proof.
  destruct (disposePage_then_unPinPage 7%N 1%N false both_pinned)
    as (H1 & _ & H3); [by apply reached_BufInv|].
  split; [exact H1|exact H3].
Defined.

(** Three resident pages: three directory entries. *)
Lemma valid_frames_match_directory_witness :
  size (hashTable two_flushable_one_pinned) =
    valid_count (bufDescTable two_flushable_one_pinned) ∧
  valid_count (bufDescTable two_flushable_one_pinned) = 3.
Proof.
  split; [|by_compute].
  apply valid_frames_match_directory. by apply reached_BufInv.
Defined.
